(** * Network ACL validation and transactional update: a shallow embedding

    The development follows [lxd/network/acl/driver_common.go]: the rule and
    rule-set validators, the config-map validator, and the Update / Rename /
    Delete operations of an ACL handle with their revert-on-failure control
    flow.  Collaborators whose code lives in other packages (the address and
    port parsers, the persistent store, the OVN client) are interfaces: type
    classes whose methods the embedded functions call, exactly where the Go
    code calls them. *)

From stdpp Require Import base option list strings gmap lexico sorting.
From Stdlib Require Import ZArith.

Local Open Scope string_scope.
Set Warnings "-clear-no-such-hyp,-register-all".

(** ** Errors *)

(** [ruleDirection] is a Go string type with two constants. *)
Inductive ruleDirection : Type :=
| ruleDirectionIngress
| ruleDirectionEgress.

Global Instance ruleDirection_eq_dec : EqDecision ruleDirection.
Proof. solve_decision. Defined.

(** The format strings of the [fmt.Errorf] and [errors.Wrapf] calls of the
    file, with their arguments. *)
Inductive msg : Type :=
| MsgNameRequired
| MsgNameReservedChar (c : Ascii.ascii)
| MsgInvalidRule (direction : ruleDirection) (i : nat)
| MsgDuplicateRule (direction : ruleDirection) (i : nat)
| MsgInvalidConfigValue (k : string)
| MsgInvalidConfigOption (k : string)
| MsgActionMustBeOneOf
| MsgStateMustBeOneOf
| MsgFailedGettingACLsForSubjects
| MsgInvalidSource
| MsgInvalidDestination
| MsgConflictingFamilies
| MsgProtocolMustBeOneOf
| MsgICMPTypeNonICMP
| MsgICMPCodeNonICMP
| MsgInvalidSourcePort
| MsgInvalidDestinationPort
| MsgSourcePortWithProtocol (protocol : string)
| MsgDestinationPortWithProtocol (protocol : string)
| MsgIPv6SourceWithProtocol (protocol : string)
| MsgIPv6DestinationWithProtocol (protocol : string)
| MsgIPv4SourceWithProtocol (protocol : string)
| MsgIPv4DestinationWithProtocol (protocol : string)
| MsgInvalidICMPType
| MsgInvalidICMPCode
| MsgICMPTypeNoProtocol
| MsgICMPCodeNoProtocol
| MsgSourcePortNoProtocol
| MsgDestinationPortNoProtocol
| MsgNotAnIPAddress (value : string)
| MsgIPRangeStartEnd
| MsgNamedSubjectsNotAllowed (fieldName : string) (direction : ruleDirection)
| MsgInvalidSubject (subject : string)
| MsgInvalidPort (port : string)
| MsgFailedGettingUsage
| MsgUnrecognisedUsageType (typeName : string)
| MsgFailedGettingNetworkUsage
| MsgFailedGetOVNClient
| MsgFailedGettingACLIDs
| MsgFailedEnsuringACL
| MsgFailedRemovingPortGroups
| MsgACLExistsAlready
| MsgCannotRenameInUse
| MsgCannotDeleteInUse.

(** Go [error] values: built here by [fmt.Errorf], wrapped by
    [errors.Wrapf], the sentinel [db.ErrInstanceListStop], or handed back by a
    collaborator. *)
Inductive error : Type :=
| Errorf (m : msg)
| Wrapf (err : error) (m : msg)
| ErrInstanceListStop
| ErrExternal (what : string).

Global Instance msg_eq_dec : EqDecision msg.
Proof. solve_decision. Defined.

Global Instance error_eq_dec : EqDecision error.
Proof. solve_decision. Defined.

(** A Go result pair [(value, error)]. *)
Inductive result (A : Type) : Type :=
| Ok (a : A)
| Err (e : error).

Arguments Ok {A} a.
Arguments Err {A} e.

(** ** Data model *)

(** Modelled from the spec: the type declaration [api.NetworkACLRule], which
    this file uses but does not declare (spec, data model, Rule: action,
    state, source, destination, protocol, the two port lists, ICMP type and
    code). *)
Record NetworkACLRule : Type := mkRule {
  Action : string;
  Source : string;
  Destination : string;
  Protocol : string;
  SourcePort : string;
  DestinationPort : string;
  ICMPType : string;
  ICMPCode : string;
  State : string
}.

Global Instance NetworkACLRule_eq_dec : EqDecision NetworkACLRule.
Proof. solve_decision. Defined.

(** A Go slice is [nil] or a sequence; a Go map is [nil] or a finite map.
    [None] stands for [nil]. *)
Definition slice (A : Type) : Type := option (list A).

(** [range] over a slice, and [len]: a nil slice has no element. *)
Definition elems {A : Type} (s : slice A) : list A := default [] s.

(** Reading a nil map reads an empty map. *)
Definition entries {V : Type} (m : option (gmap string V)) : gmap string V :=
  default ∅ m.

(** [api.NetworkACLPut]: the writable part of an ACL. *)
Record NetworkACLPut : Type := mkPut {
  Description : string;
  Ingress : slice NetworkACLRule;
  Egress : slice NetworkACLRule;
  Config : option (gmap string string)
}.

(** [api.NetworkACL]: [NetworkACLPost] (the name) and [NetworkACLPut]
    embedded, and the [UsedBy] list. *)
Record NetworkACL : Type := mkACL {
  Name : string;
  Put : NetworkACLPut;
  UsedByField : slice string
}.

(** The zero value [api.NetworkACL{}]. *)
Definition zeroACL : NetworkACL :=
  mkACL "" (mkPut "" None None None) None.

(** [common]: the ACL handle.  The logger carries no state of interest and the
    [state] pointer is the world the operations below are run in. *)
Record common : Type := mkCommon {
  id : Z;
  projectName : string;
  info : NetworkACL
}.

(** [NetworkACLUsage]: what the usage scan records per network. *)
Record NetworkACLUsage : Type := mkUsage {
  UsageID : Z;
  UsageName : string;
  Type_ : string;
  UsageConfig : gmap string string
}.

(** What the usage visitor is handed as [usageType interface{}]: the four
    types of the type switch in [usedBy], and anything else. *)
Inductive usageType : Type :=
| UInstance (name project : string)
| UNetwork (name : string)
| UProfile (name project : string)
| UNetworkACL (name : string)
| UOther (typeName : string).

(** ** Collaborators *)

(** [net.IP] is a byte slice (4 or 16 bytes). *)
Definition IP : Type := list Z.

(** The validators of [shared/validate], [shared], [util] and the parsers of
    package [net] that the rule validator calls. *)
Class Validators : Type := {
  ParseIP : string → option IP;
  ParseCIDR : string → result IP;
  IsNetworkRange : string → option error;
  IsNetworkPort : string → option error;
  IsNetworkPortRange : string → option error;
  IsUint8 : string → option error;
  IsUserConfig : string → bool;
  ValidHostname : string → option error;
  SplitNTrimSpace : string → string → Z → bool → list string;
  Normalise : NetworkACLRule → NetworkACLRule
}.

(** The order in which Go's [range] visits the entries of a map: unspecified,
    so any enumeration of them. *)
Class MapRange : Type := {
  rangeMap : ∀ {V : Type}, gmap string V → list (string * V);
  rangeMap_perm : ∀ (V : Type) (m : gmap string V), rangeMap m ≡ₚ map_to_list m
}.

(** [strings.SplitN] for a separator that is not empty: at most [n] pieces
    when [n > 0] (the last one is the unsplit rest), all of them when [n < 0],
    none when [n = 0].  [skip] counts the separator's characters still to be
    dropped, [cur] is the piece being read. *)
Fixpoint splitLoop (sep : string) (n skip : nat) (cur s : string) : list string :=
  match s with
  | EmptyString => [cur]
  | String c rest =>
      match skip with
      | S k => splitLoop sep n k cur rest
      | O =>
          if (1 <? n)%nat && String.prefix sep s
          then cur :: splitLoop sep (n - 1) (String.length sep - 1) "" rest
          else splitLoop sep n 0 (cur +:+ String c "") rest
      end
  end.

Definition SplitN (s sep : string) (n : Z) : list string :=
  if (n =? 0)%Z then []
  else splitLoop sep (if (n <? 0)%Z then S (String.length s) else Z.to_nat n) 0 "" s.

(** [net.IP.To4]: a 4-byte address is itself, a 16-byte address with the
    IPv4-in-IPv6 prefix is its last four bytes, anything else is nil. *)
Definition To4 (ip : IP) : option IP :=
  if (length ip =? 4)%nat then Some ip
  else if (length ip =? 16)%nat
          && forallb (Z.eqb 0) (take 10 ip)
          && bool_decide (ip !! 10%nat = Some 255%Z)
          && bool_decide (ip !! 11%nat = Some 255%Z)
       then Some (drop 12 ip)
       else None.

(** [shared.StringInSlice]. *)
Fixpoint StringInSlice (key : string) (l : list string) : bool :=
  match l with
  | [] => false
  | entry :: rest => if decide (entry = key) then true else StringInSlice key rest
  end.

(** [shared.StringHasPrefix]: some prefix of the list starts the value. *)
Definition StringHasPrefix (value : string) (prefixes : list string) : bool :=
  existsb (λ p, String.prefix p value) prefixes.

(** The persistent store ([state.Cluster], and the package's [LoadByName],
    [UsedBy] and [NetworkUsage] that read it).  A write hands back the store it
    leaves behind and its error, if any; nothing is assumed about what a
    failed write leaves. *)
Class Cluster (Store : Type) : Type := {
  GetNetworkACLIDsByNames : Store → string → result (gmap string Z);
  UpdateNetworkACL : Store → Z → NetworkACLPut → Store * option error;
  RenameNetworkACL : Store → Z → string → Store * option error;
  DeleteNetworkACL : Store → Z → Store * option error;
  LoadByName : Store → string → string → result common;
  (** The usages of the named ACLs that [UsedBy] would hand to its visitor,
      in its order, and the error it ends with when the visitor never stops
      it. *)
  usages : Store → string → list string → list usageType * option error;
  NetworkUsage : Store → string → list string →
                 gmap string NetworkACLUsage → gmap string NetworkACLUsage * option error
}.

(** The SDN control plane ([openvswitch.NewOVN], [OVNEnsureACLs],
    [OVNPortGroupDeleteIfUnused]).  [OVNEnsureACLs] hands back a reverter,
    whose [Fail] is a change of the control plane's state. *)
Class OVN (Store SDN : Type) : Type := {
  NewOVN : Store → SDN → option error;
  OVNEnsureACLs : Store → SDN → string → gmap string Z → gmap string NetworkACLUsage →
                  list string → bool → SDN * result (SDN → SDN);
  OVNPortGroupDeleteIfUnused : Store → SDN → string → list string → SDN * option error
}.

(** ** The validators *)

Definition ruleSubjectInternal : string := "@internal".
Definition ruleSubjectExternal : string := "@external".
Definition ruleSubjectInternalAliases : list string := [ruleSubjectInternal; "#internal"].
Definition ruleSubjectExternalAliases : list string := [ruleSubjectExternal; "#external"].
Definition ValidActions : list string := ["allow"; "drop"; "reject"].

Section Validation.
Context `{Validators} `{MapRange}.

(** [common.validateName]. *)
Definition validateName (name : string) : option error :=
  match name with
  | EmptyString => Some (Errorf MsgNameRequired)
  | String c _ =>
      if StringHasPrefix name ["@"; "%"; "#"]
      then Some (Errorf (MsgNameReservedChar c))
      else ValidHostname name
  end.

(** First loop of [validateConfigMap]: run each validator of the table on its
    (possibly absent) value, marking the field as checked. *)
Fixpoint runValidators (config : gmap string string)
    (rules : list (string * (string → option error)))
    (checkedFields : gset string) : result (gset string) :=
  match rules with
  | [] => Ok checkedFields
  | (k, validator) :: rest =>
      match validator (default "" (config !! k)) with
      | Some err => Err (Wrapf err (MsgInvalidConfigValue k))
      | None => runValidators config rest ({[k]} ∪ checkedFields)
      end
  end.

(** Second loop of [validateConfigMap]: a key neither checked nor a user key
    is unknown. *)
Fixpoint uncheckedFields (keys : list string) (checkedFields : gset string) : option error :=
  match keys with
  | [] => None
  | k :: rest =>
      if decide (k ∈ checkedFields) then uncheckedFields rest checkedFields
      else if IsUserConfig k then uncheckedFields rest checkedFields
      else Some (Errorf (MsgInvalidConfigOption k))
  end.

(** [common.validateConfigMap]. *)
Definition validateConfigMap (config : option (gmap string string))
    (rules : option (gmap string (string → option error))) : option error :=
  match runValidators (entries config) (rangeMap (entries rules)) ∅ with
  | Err err => Some err
  | Ok checkedFields => uncheckedFields (rangeMap (entries config)).*1 checkedFields
  end.

(** The closures of [validateRuleSubjects]: each gives the IP version of a
    value it accepts. *)
Definition ipVersionOf (ip : option IP) : Z :=
  match ip ≫= To4 with
  | None => 6%Z
  | Some _ => 4%Z
  end.

Definition isNetworkAddress (value : string) : result Z :=
  match ParseIP value with
  | None => Err (Errorf (MsgNotAnIPAddress value))
  | Some ip => Ok (ipVersionOf (Some ip))
  end.

Definition isNetworkAddressCIDR (value : string) : result Z :=
  match ParseCIDR value with
  | Err err => Err err
  | Ok ip => Ok (ipVersionOf (Some ip))
  end.

Definition isNetworkRange (value : string) : result Z :=
  match IsNetworkRange value with
  | Some err => Err err
  | None =>
      match SplitN value "-" 2 with
      | [start; _] => Ok (ipVersionOf (ParseIP start))
      | _ => Err (Errorf MsgIPRangeStartEnd)
      end
  end.

Definition checks : list (string → result Z) :=
  [isNetworkAddress; isNetworkAddressCIDR; isNetworkRange].

(** The first loop of the closure [validSubject]: the first check that
    accepts the subject gives its IP version. *)
Fixpoint firstCheck (cs : list (string → result Z)) (subject : string) : option Z :=
  match cs with
  | [] => None
  | c :: rest =>
      match c subject with
      | Ok ipVersion => Some ipVersion
      | Err _ => firstCheck rest subject
      end
  end.

(** Is a named subject allowed in this field for this direction? *)
Definition allowSubjectNames (fieldName : string) (direction : ruleDirection) : bool :=
  bool_decide ((fieldName = "Source" ∧ direction = ruleDirectionIngress)
               ∨ (fieldName = "Destination" ∧ direction = ruleDirectionEgress)).

(** The second loop of [validSubject]: the subject against the valid names. *)
Fixpoint subjectName (fieldName : string) (direction : ruleDirection)
    (validSubjectNames : list string) (subject : string) : result Z :=
  match validSubjectNames with
  | [] => Err (Errorf (MsgInvalidSubject subject))
  | n :: rest =>
      if decide (subject = n)
      then if allowSubjectNames fieldName direction
           then Ok 0%Z
           else Err (Errorf (MsgNamedSubjectsNotAllowed fieldName direction))
      else subjectName fieldName direction rest subject
  end.

Definition validSubject (fieldName : string) (direction : ruleDirection)
    (validSubjectNames : list string) (subject : string) : result Z :=
  match firstCheck checks subject with
  | Some ipVersion => Ok ipVersion
  | None => subjectName fieldName direction validSubjectNames subject
  end.

(** The loop of [validateRuleSubjects] over the subjects, with the three flags. *)
Fixpoint subjectsLoop (fieldName : string) (direction : ruleDirection)
    (validSubjectNames subjects : list string)
    (hasName hasIPv4 hasIPv6 : bool) : result (bool * bool * bool) :=
  match subjects with
  | [] => Ok (hasName, hasIPv4, hasIPv6)
  | s :: rest =>
      match validSubject fieldName direction validSubjectNames s with
      | Err err => Err err
      | Ok ipVersion =>
          if (ipVersion =? 0)%Z
          then subjectsLoop fieldName direction validSubjectNames rest true hasIPv4 hasIPv6
          else if (ipVersion =? 4)%Z
          then subjectsLoop fieldName direction validSubjectNames rest hasName true hasIPv6
          else if (ipVersion =? 6)%Z
          then subjectsLoop fieldName direction validSubjectNames rest hasName hasIPv4 true
          else subjectsLoop fieldName direction validSubjectNames rest hasName hasIPv4 hasIPv6
      end
  end.

(** [common.validateRuleSubjects]: whether the subjects include names, IPv4
    and IPv6 addresses. *)
Definition validateRuleSubjects (fieldName : string) (direction : ruleDirection)
    (subjects validSubjectNames : list string) : result (bool * bool * bool) :=
  subjectsLoop fieldName direction validSubjectNames subjects false false false.

(** The closure [validPort] of [validatePorts]. *)
Definition validPort (port : string) : option error :=
  match IsNetworkPort port with
  | None => None
  | Some _ =>
      match IsNetworkPortRange port with
      | None => None
      | Some _ => Some (Errorf (MsgInvalidPort port))
      end
  end.

(** [common.validatePorts]. *)
Fixpoint validatePorts (ports : list string) : option error :=
  match ports with
  | [] => None
  | port :: rest =>
      match validPort port with
      | Some err => Some err
      | None => validatePorts rest
      end
  end.

End Validation.

(** Constants of the packages [version] and [project]. *)
Class Constants : Type := {
  APIVersion : string;
  projectDefault : string
}.

(** ** The rule and rule-set validators *)

Section Rules.
Context `{Validators} `{MapRange} {Store : Type} `{Cluster Store}.

(** [common.Project]. *)
Definition Project (d : common) : string := projectName d.

(** The condition of lines 344-347: the address families of the two sides
    conflict. *)
Definition conflictingFamilies
    (srcHasName srcHasIPv4 srcHasIPv6 dstHasName dstHasIPv4 dstHasIPv6 : bool) : bool :=
  (srcHasIPv4 && negb dstHasIPv4 && negb dstHasName)
  || (dstHasIPv4 && negb srcHasIPv4 && negb srcHasName)
  || (srcHasIPv6 && negb dstHasIPv6 && negb dstHasName)
  || (dstHasIPv6 && negb srcHasIPv6 && negb srcHasName).

(** The names a subject may be: the reserved classifiers with their aliases,
    then every ACL name of the project. *)
Definition validNames (acls : gmap string Z) : list string :=
  (ruleSubjectInternalAliases ++ ruleSubjectExternalAliases ++ (rangeMap acls).*1)%list.

(** [validateRule] from "Validate Protocol field" to its end: the protocol
    and the fields that depend on it. *)
Definition validateProtocolFields (rule : NetworkACLRule)
    (srcHasIPv4 srcHasIPv6 dstHasIPv4 dstHasIPv6 : bool) : option error :=
  if bool_decide (Protocol rule ≠ "")
     && negb (StringInSlice (Protocol rule) ["icmp4"; "icmp6"; "tcp"; "udp"])
  then Some (Errorf MsgProtocolMustBeOneOf)
  else if StringInSlice (Protocol rule) ["tcp"; "udp"] then
    if bool_decide (ICMPType rule ≠ "") then Some (Errorf MsgICMPTypeNonICMP)
    else if bool_decide (ICMPCode rule ≠ "") then Some (Errorf MsgICMPCodeNonICMP)
    else
      match (if bool_decide (SourcePort rule ≠ "")
             then validatePorts (SplitNTrimSpace (SourcePort rule) "," (-1) false)
             else None) with
      | Some err => Some (Wrapf err MsgInvalidSourcePort)
      | None =>
          match (if bool_decide (DestinationPort rule ≠ "")
                 then validatePorts (SplitNTrimSpace (DestinationPort rule) "," (-1) false)
                 else None) with
          | Some err => Some (Wrapf err MsgInvalidDestinationPort)
          | None => None
          end
      end
  else if StringInSlice (Protocol rule) ["icmp4"; "icmp6"] then
    if bool_decide (SourcePort rule ≠ "")
    then Some (Errorf (MsgSourcePortWithProtocol (Protocol rule)))
    else if bool_decide (DestinationPort rule ≠ "")
    then Some (Errorf (MsgDestinationPortWithProtocol (Protocol rule)))
    else
      match (if bool_decide (Protocol rule = "icmp4") then
               if srcHasIPv6
               then Some (Errorf (MsgIPv6SourceWithProtocol (Protocol rule)))
               else if dstHasIPv6
               then Some (Errorf (MsgIPv6DestinationWithProtocol (Protocol rule)))
               else None
             else if bool_decide (Protocol rule = "icmp6") then
               if srcHasIPv4
               then Some (Errorf (MsgIPv4SourceWithProtocol (Protocol rule)))
               else if dstHasIPv4
               then Some (Errorf (MsgIPv4DestinationWithProtocol (Protocol rule)))
               else None
             else None) with
      | Some err => Some err
      | None =>
          match (if bool_decide (ICMPType rule ≠ "")
                 then IsUint8 (ICMPType rule) else None) with
          | Some err => Some (Wrapf err MsgInvalidICMPType)
          | None =>
              match (if bool_decide (ICMPCode rule ≠ "")
                     then IsUint8 (ICMPCode rule) else None) with
              | Some err => Some (Wrapf err MsgInvalidICMPCode)
              | None => None
              end
          end
      end
  else
    if bool_decide (ICMPType rule ≠ "") then Some (Errorf MsgICMPTypeNoProtocol)
    else if bool_decide (ICMPCode rule ≠ "") then Some (Errorf MsgICMPCodeNoProtocol)
    else if bool_decide (SourcePort rule ≠ "") then Some (Errorf MsgSourcePortNoProtocol)
    else if bool_decide (DestinationPort rule ≠ "")
    then Some (Errorf MsgDestinationPortNoProtocol)
    else None.

(** [common.validateRule].  The handle reads the ACL names of its project
    from the store [cluster]. *)
Definition validateRule (cluster : Store) (d : common)
    (direction : ruleDirection) (rule : NetworkACLRule) : option error :=
  if negb (StringInSlice (Action rule) ValidActions)
  then Some (Errorf MsgActionMustBeOneOf)
  else if negb (StringInSlice (State rule) ["enabled"; "disabled"; "logged"])
  then Some (Errorf MsgStateMustBeOneOf)
  else
    match GetNetworkACLIDsByNames cluster (Project d) with
    | Err err => Some (Wrapf err MsgFailedGettingACLsForSubjects)
    | Ok acls =>
        let validSubjectNames := validNames acls in
        match (if bool_decide (Source rule ≠ "")
               then validateRuleSubjects "Source" direction
                      (SplitNTrimSpace (Source rule) "," (-1) false) validSubjectNames
               else Ok (false, false, false)) with
        | Err err => Some (Wrapf err MsgInvalidSource)
        | Ok (srcHasName, srcHasIPv4, srcHasIPv6) =>
            match (if bool_decide (Destination rule ≠ "")
                   then validateRuleSubjects "Destination" direction
                          (SplitNTrimSpace (Destination rule) "," (-1) false) validSubjectNames
                   else Ok (false, false, false)) with
            | Err err => Some (Wrapf err MsgInvalidDestination)
            | Ok (dstHasName, dstHasIPv4, dstHasIPv6) =>
                if bool_decide (Source rule ≠ "") && bool_decide (Destination rule ≠ "")
                   && conflictingFamilies srcHasName srcHasIPv4 srcHasIPv6
                                          dstHasName dstHasIPv4 dstHasIPv6
                then Some (Errorf MsgConflictingFamilies)
                else validateProtocolFields rule srcHasIPv4 srcHasIPv6 dstHasIPv4 dstHasIPv6
            end
        end
    end.

(** [for i := range rules { rules[i].Normalise() }]: in place, so a nil slice
    stays nil. *)
Definition normaliseAll (rules : slice NetworkACLRule) : slice NetworkACLRule :=
  map Normalise <$> rules.

(** The inner loop of [validateConfig]: is some rule at an index [ri] other
    than [i] equal to the rule at [i]? *)
Fixpoint duplicated (i : nat) (rule : NetworkACLRule)
    (rules : list NetworkACLRule) (ri : nat) : bool :=
  match rules with
  | [] => false
  | r :: rest =>
      if decide (ri = i) then duplicated i rule rest (S ri)
      else if decide (r = rule) then true
      else duplicated i rule rest (S ri)
  end.

(** The outer loop of [validateConfig] for one direction (the source writes
    it out twice, for ingress and for egress): [rules] is what is left to
    visit of [all], from index [i] on. *)
Fixpoint validateRules (cluster : Store) (d : common) (direction : ruleDirection)
    (all rules : list NetworkACLRule) (i : nat) : option error :=
  match rules with
  | [] => None
  | rule :: rest =>
      match validateRule cluster d direction rule with
      | Some err => Some (Wrapf err (MsgInvalidRule direction i))
      | None =>
          if duplicated i rule all 0
          then Some (Errorf (MsgDuplicateRule direction i))
          else validateRules cluster d direction all rest (S i)
      end
  end.

(** [common.validateConfig].  The rules of [info] are normalised in place:
    the first component is [info] as the call leaves it. *)
Definition validateConfig (cluster : Store) (d : common)
    (info : NetworkACLPut) : NetworkACLPut * option error :=
  match validateConfigMap (Config info) None with
  | Some err => (info, Some err)
  | None =>
      let info := mkPut (Description info) (normaliseAll (Ingress info))
                        (normaliseAll (Egress info)) (Config info) in
      (info,
       match validateRules cluster d ruleDirectionIngress
               (elems (Ingress info)) (elems (Ingress info)) 0 with
       | Some err => Some err
       | None =>
           validateRules cluster d ruleDirectionEgress
             (elems (Egress info)) (elems (Egress info)) 0
       end)
  end.

End Rules.

(** ** The ACL handle *)

Section Handle.
Context `{Validators} `{MapRange} `{Constants}.

(** [common.init].  Every field of the receiver is overwritten, so the result
    does not depend on it; the argument [info] may be nil. *)
Definition init (id : Z) (projectName : string) (info : option NetworkACL) : common :=
  let info := match info with
              | None => zeroACL
              | Some info => info
              end in
  let ingress := match Ingress (Put info) with
                 | None => Some []
                 | Some rules => Some rules
                 end in
  let ingress := normaliseAll ingress in
  let egress := match Egress (Put info) with
                | None => Some []
                | Some rules => Some rules
                end in
  let egress := normaliseAll egress in
  let config := match Config (Put info) with
                | None => Some ∅
                | Some config => Some config
                end in
  mkCommon id projectName
    (mkACL (Name info) (mkPut (Description (Put info)) ingress egress config)
           (UsedByField info)).

(** [common.ID]. *)
Definition ID (d : common) : Z := id d.

(** [common.Info]: a copy, with fresh (so non-nil) slices and map and an
    unpopulated [UsedBy]. *)
Definition Info (d : common) : NetworkACL :=
  mkACL (Name (info d))
        (mkPut (Description (Put (info d)))
               (Some (elems (Ingress (Put (info d)))))
               (Some (elems (Egress (Put (info d)))))
               (Some (entries (Config (Put (info d))))))
        None.

(** [common.Etag]: the values the etag is computed from. *)
Definition Etag (d : common) :
    string * string * slice NetworkACLRule * slice NetworkACLRule
    * option (gmap string string) :=
  (Name (info d), Description (Put (info d)), Ingress (Put (info d)),
   Egress (Put (info d)), Config (Put (info d))).

(** The URI a usage is reported under (the type switch of the visitor in
    [usedBy]). *)
Definition usageURI (d : common) (u : usageType) : result string :=
  match u with
  | UInstance name project =>
      Ok ("/" +:+ APIVersion +:+ "/instances/" +:+ name
          +:+ (if bool_decide (project ≠ projectDefault)
               then "?project=" +:+ project else ""))
  | UNetwork name =>
      Ok ("/" +:+ APIVersion +:+ "/networks/" +:+ name
          +:+ (if bool_decide (projectName d ≠ projectDefault)
               then "?project=" +:+ projectName d else ""))
  | UProfile name project =>
      Ok ("/" +:+ APIVersion +:+ "/profiles/" +:+ name
          +:+ (if bool_decide (project ≠ projectDefault)
               then "?project=" +:+ project else ""))
  | UNetworkACL name =>
      Ok ("/" +:+ APIVersion +:+ "/network-acls/" +:+ name
          +:+ (if bool_decide (projectName d ≠ projectDefault)
               then "?project=" +:+ projectName d else ""))
  | UOther typeName => Err (Errorf (MsgUnrecognisedUsageType typeName))
  end.

(** The visitor of [usedBy]: the closure appends to the captured [usedBy]. *)
Definition usageFunc (d : common) (firstOnly : bool)
    (usedBy : list string) (u : usageType) : list string * option error :=
  match usageURI d u with
  | Err err => (usedBy, Some err)
  | Ok uri =>
      ((usedBy ++ [uri])%list, if firstOnly then Some ErrInstanceListStop else None)
  end.

(** Modelled from the spec: the package function [UsedBy], which this file
    calls but does not define (spec, store interface: enumerateUsage hands
    each usage to the visitor, which may request an early stop).  The first
    error of the visitor ends the walk and is returned as it is. *)
Fixpoint visit {A : Type} (f : A → usageType → A * option error)
    (us : list usageType) (acc : A) : A * option error :=
  match us with
  | [] => (acc, None)
  | u :: rest =>
      match f acc u with
      | (acc, Some err) => (acc, Some err)
      | (acc, None) => visit f rest acc
      end
  end.

Context {Store : Type} `{Cluster Store}.

Definition UsedBy {A : Type} (cluster : Store) (aclProjectName : string)
    (usageFunc : A → usageType → A * option error) (acc : A)
    (matchACLNames : list string) : A * option error :=
  let '(us, last) := usages cluster aclProjectName matchACLNames in
  match visit usageFunc us acc with
  | (acc, Some err) => (acc, Some err)
  | (acc, None) => (acc, last)
  end.

(** [common.usedBy]. *)
Definition usedBy (cluster : Store) (d : common) (firstOnly : bool) : result (list string) :=
  match UsedBy cluster (projectName d) (usageFunc d firstOnly) [] [Name (Info d)] with
  | (usedBy, Some err) =>
      if decide (err = ErrInstanceListStop) then Ok usedBy
      else Err (Wrapf err MsgFailedGettingUsage)
  | (usedBy, None) => Ok usedBy
  end.

(** [common.UsedBy]. *)
Definition common_UsedBy (cluster : Store) (d : common) : result (list string) :=
  usedBy cluster d false.

(** [common.isUsed]. *)
Definition isUsed (cluster : Store) (d : common) : result bool :=
  match usedBy cluster d true with
  | Err err => Err err
  | Ok usedBy => Ok (0 <? length usedBy)%nat
  end.

End Handle.

(** ** Update, Rename, Delete *)

(** The calls that change the store or reach the SDN control plane, as they
    are made: a record kept beside the state, which the code does not read. *)
Inductive call : Type :=
| CallUpdateNetworkACL (id : Z) (config : NetworkACLPut)
| CallRenameNetworkACL (id : Z) (newName : string)
| CallDeleteNetworkACL (id : Z)
| CallNewOVN
| CallOVNEnsureACLs (aclNames : list string)
| CallOVNRevert
| CallOVNPortGroupDeleteIfUnused (aclNames : list string).

(** What an operation on a handle runs in: the store, the SDN control plane,
    the calls made so far, and the handle [d] itself. *)
Record machine (Store SDN : Type) : Type := mkMachine {
  cluster : Store;
  sdn : SDN;
  calls : list call;
  d : common
}.

Arguments mkMachine {Store SDN} cluster sdn calls d.
Arguments cluster {Store SDN} m.
Arguments sdn {Store SDN} m.
Arguments calls {Store SDN} m.
Arguments d {Store SDN} m.

(** A computation on a state [S] that returns a value or stops with an
    error. *)
Definition Op (S A : Type) : Type := S → S * result A.

Global Instance Op_ret {S : Type} : MRet (Op S) :=
  λ A a s, (s, Ok a).

Global Instance Op_bind {S : Type} : MBind (Op S) :=
  λ A B f c s,
    match c s with
    | (s, Ok a) => f a s
    | (s, Err err) => (s, Err err)
    end.

Definition gets {S A : Type} (f : S → A) : Op S A := λ s, (s, Ok (f s)).
Definition modify {S : Type} (f : S → S) : Op S unit := λ s, (f s, Ok tt).
Definition failWith {S A : Type} (err : error) : Op S A := λ s, (s, Err err).

(** [return err] when [err != nil]. *)
Definition check {S : Type} (err : option error) : Op S unit :=
  match err with
  | Some err => failWith err
  | None => mret tt
  end.

(** [return errors.Wrapf(err, m)] when [err != nil]. *)
Definition checkWrapf {S : Type} (err : option error) (m : msg) : Op S unit :=
  check ((λ err, Wrapf err m) <$> err).

Section Operations.
Context `{Validators} `{MapRange} `{Constants}.
Context {Store SDN : Type} `{Cluster Store} `{OVN Store SDN}.

Local Abbreviation machine := (machine Store SDN).

(** Modelled from the spec: the package [revert], which this file uses but
    does not define (spec, Revert Plan: reversal actions accumulated in order,
    executed in reverse on failure, discarded on success).  A reversal action
    is a closure over the handle and the world. *)
Definition hook : Type := machine → machine.

Definition Reverter : Type := list hook.

Definition New : Reverter := [].

Definition Add (r : Reverter) (f : hook) : Reverter := (r ++ [f])%list.

Definition Fail (r : Reverter) (m : machine) : machine :=
  fold_left (λ m f, f m) (reverse r) m.

Definition Success (r : Reverter) : Reverter := [].

(** The state of a running [Update]: the machine and its reverter. *)
Definition running : Type := machine * Reverter.

Definition setCluster (m : machine) (cluster' : Store) (c : call) : machine :=
  mkMachine cluster' (sdn m) (calls m ++ [c])%list (d m).

Definition setSDN (m : machine) (sdn' : SDN) (c : call) : machine :=
  mkMachine (cluster m) sdn' (calls m ++ [c])%list (d m).

Definition setHandle (m : machine) (d' : common) : machine :=
  mkMachine (cluster m) (sdn m) (calls m) d'.

(** [d.info.NetworkACLPut = config; d.init(d.state, d.id, d.projectName, d.info)]. *)
Definition apply (config : NetworkACLPut) (d : common) : common :=
  init (id d) (projectName d)
       (Some (mkACL (Name (info d)) config (UsedByField (info d)))).

(** The first reversal action of [Update]: write the old configuration back
    (the error of the write is dropped) and put it back in the handle. *)
Definition restore (oldConfig : NetworkACLPut) : hook :=
  λ m,
    let '(cluster', _) := UpdateNetworkACL (cluster m) (id (d m)) oldConfig in
    let m := setCluster m cluster' (CallUpdateNetworkACL (id (d m)) oldConfig) in
    setHandle m (apply oldConfig (d m)).

(** [r.Fail] of the reverter that [OVNEnsureACLs] returns. *)
Definition revertOVN (r : SDN → SDN) : hook :=
  λ m, setSDN m (r (sdn m)) CallOVNRevert.

(** The aclNets that are left once the non-OVN networks are deleted. *)
Definition onlyOVN (aclNets : gmap string NetworkACLUsage) : gmap string NetworkACLUsage :=
  filter (λ kv, Type_ kv.2 = "ovn") aclNets.

(** [Update] from [revert.New()] to [return nil], for a configuration that
    passed validation; the deferred [revert.Fail()] is run by [Update]. *)
Definition updateSteps (config : NetworkACLPut) : Op running unit :=
  oldConfig ← gets (λ s : running, Put (info (d s.1)));
  (* Update database. *)
  err ← (λ s : running,
           let '(cluster', err) := UpdateNetworkACL (cluster s.1) (id (d s.1)) config in
           ((setCluster s.1 cluster' (CallUpdateNetworkACL (id (d s.1)) config), s.2),
            Ok err));
  check err;;
  (* Apply changes internally and reinitialise. *)
  modify (λ s : running, (setHandle s.1 (apply config (d s.1)), s.2));;
  modify (λ s : running, (s.1, Add s.2 (restore oldConfig)));;
  (* The networks affected by this ACL. *)
  usage ← gets (λ s : running,
                  NetworkUsage (cluster s.1) (projectName (d s.1))
                               [Name (info (d s.1))] ∅);
  checkWrapf usage.2 MsgFailedGettingNetworkUsage;;
  let aclNets := onlyOVN usage.1 in
  (if bool_decide (0 < size aclNets)%nat then
     err ← (λ s : running,
              ((setSDN s.1 (sdn s.1) CallNewOVN, s.2),
               Ok (NewOVN (cluster s.1) (sdn s.1))));
     checkWrapf err MsgFailedGetOVNClient;;
     aclNameIDs ← (λ s : running,
                     (s, match GetNetworkACLIDsByNames (cluster s.1) (Project (d s.1)) with
                         | Ok ids => Ok ids
                         | Err err => Err (Wrapf err MsgFailedGettingACLIDs)
                         end));
     r ← (λ s : running,
            let names := [Name (info (d s.1))] in
            let '(sdn', r) := OVNEnsureACLs (cluster s.1) (sdn s.1) (projectName (d s.1))
                                            aclNameIDs aclNets names true in
            ((setSDN s.1 sdn' (CallOVNEnsureACLs names), s.2),
             match r with
             | Ok r => Ok r
             | Err err => Err (Wrapf err MsgFailedEnsuringACL)
             end));
     modify (λ s : running, (s.1, Add s.2 (revertOVN r)));;
     err ← (λ s : running,
              let names := [Name (info (d s.1))] in
              let '(sdn', err) := OVNPortGroupDeleteIfUnused (cluster s.1) (sdn s.1)
                                    (projectName (d s.1)) names in
              ((setSDN s.1 sdn' (CallOVNPortGroupDeleteIfUnused names), s.2), Ok err));
     checkWrapf err MsgFailedRemovingPortGroups
   else mret tt);;
  modify (λ s : running, (s.1, Success s.2)).

(** [common.Update]. *)
Definition Update (config : NetworkACLPut) (m : machine) : machine * option error :=
  match validateConfig (cluster m) (d m) config with
  | (_, Some err) => (m, Some err)
  | (config, None) =>
      let '((m, revert), r) := updateSteps config (m, New) in
      (Fail revert m,
       match r with
       | Ok _ => None
       | Err err => Some err
       end)
  end.

(** [common.Rename]. *)
Definition Rename (newName : string) (m : machine) : machine * option error :=
  match LoadByName (cluster m) (projectName (d m)) newName with
  | Ok _ => (m, Some (Errorf MsgACLExistsAlready))
  | Err _ =>
      match isUsed (cluster m) (d m) with
      | Err err => (m, Some err)
      | Ok true => (m, Some (Errorf MsgCannotRenameInUse))
      | Ok false =>
          match validateName newName with
          | Some err => (m, Some err)
          | None =>
              let '(cluster', err) := RenameNetworkACL (cluster m) (id (d m)) newName in
              let m := setCluster m cluster' (CallRenameNetworkACL (id (d m)) newName) in
              match err with
              | Some err => (m, Some err)
              | None =>
                  (setHandle m (mkCommon (id (d m)) (projectName (d m))
                                  (mkACL newName (Put (info (d m)))
                                         (UsedByField (info (d m))))),
                   None)
              end
          end
      end
  end.

(** [common.Delete]. *)
Definition Delete (m : machine) : machine * option error :=
  match isUsed (cluster m) (d m) with
  | Err err => (m, Some err)
  | Ok true => (m, Some (Errorf MsgCannotDeleteInUse))
  | Ok false =>
      let '(cluster', err) := DeleteNetworkACL (cluster m) (id (d m)) in
      (setCluster m cluster' (CallDeleteNetworkACL (id (d m))), err)
  end.

End Operations.

(** ** Marshalling to Starlark ([internal/server/scriptlet/starlark.go]) *)

Module scriptlet.

(** The errors of the file: the format strings of its [fmt.Errorf] calls. *)
Inductive failure : Type :=
| Unhashable (typeName : string)
| InvalidField (name : string)
| OnlyStringKeys (found : string)
| UnrecognisedType (typeName : string)
| UnsupportedType (typeName : string).

Global Instance failure_eq_dec : EqDecision failure.
Proof. solve_decision. Defined.

(** A Go result pair [(value, error)] of this package. *)
Inductive outcome (A : Type) : Type :=
| Done (a : A)
| Failed (err : failure).

Arguments Done {A} a.
Arguments Failed {A} err.

Section Values.
(** Go's [float64]: the code only carries floats from one side to the other. *)
Context {F : Type}.

(** [starlark.Value]: the types [StarlarkUnmarshal] tells apart, the
    [*starlarkObject] of this file (its dict and its type name), and any other
    value, by the name of its Go type.  A dict is its items in insertion
    order. *)
Inductive Value : Type :=
| None_
| Bool (b : bool)
| Int (n : Z)
| Float (f : F)
| String_ (s : string)
| List (elems : list Value)
| Dict (items : list (Value * Value))
| starlarkObject (d : list (Value * Value)) (typeName : string)
| Opaque_ (goType : string).

(** What [reflect] says of a struct field. *)
Record StructField : Type := mkField {
  FieldName : string;
  jsonTag : string;
  IsExported : bool;
  Anonymous : bool
}.

(** A Go value handed to [StarlarkMarshal] as [any], as [reflect] sees it: the
    nil interface; a value whose type implements [starlark.Value] (with
    whether its kind is Struct); and a value of each kind of the switch, where
    [Other] stands for every kind the switch has no case for.  Integers are
    their values (the widths make no difference to the code); a map is its
    key kind and its entries, keys as strings, in no particular order. *)
Inductive GoValue : Type :=
| Nil
| Starlark (isStruct : bool) (sv : Value)
| GoString (s : string)
| GoInt (n : Z)
| GoUint (n : Z)
| GoFloat (f : F)
| GoBool (b : bool)
| Slice (elems : list GoValue)
| Map (keyKind : string) (entries : list (string * GoValue))
| Struct (typeName : string) (fields : list (StructField * GoValue))
| Pointer (elem : option GoValue)
| Other (typeName : string).

(** [starlarkObject.Type], [Hash], [Truth]. *)
Definition Type_ (d : list (Value * Value)) (typeName : string) : string := typeName.

Definition Hash (d : list (Value * Value)) (typeName : string) : outcome Z :=
  Failed (Unhashable (Type_ d typeName)).

Definition Truth (d : list (Value * Value)) (typeName : string) : bool := true.

(** [starlark.Dict.Get] with a string key: the first item under that key. *)
Fixpoint Get (items : list (Value * Value)) (k : string) : option Value :=
  match items with
  | [] => None
  | (String_ k', v) :: rest => if decide (k' = k) then Some v else Get rest k
  | _ :: rest => Get rest k
  end.

(** [starlark.Dict.SetKey] with a string key on a dict that is neither frozen
    nor being iterated, where it cannot fail: the value of the key is
    replaced where the key stands, a new key goes last. *)
Fixpoint SetKey (items : list (Value * Value)) (k : string) (v : Value) :
    list (Value * Value) :=
  match items with
  | [] => [(String_ k, v)]
  | (String_ k', v') :: rest =>
      if decide (k' = k) then (String_ k', v) :: rest
      else (String_ k', v') :: SetKey rest k v
  | item :: rest => item :: SetKey rest k v
  end.

(** [starlarkObject.Attr]. *)
Definition Attr (d : list (Value * Value)) (typeName : string) (name : string) :
    outcome Value :=
  match Get d name with
  | None => Failed (InvalidField name)
  | Some field => Done field
  end.

(** The bytes of a string, and Go's [<] on strings: the lexicographic order
    of the bytes. *)
Definition bytes (s : string) : list N :=
  Ascii.N_of_ascii <$> String.list_ascii_of_string s.

Definition less (a b : string) : Prop := lexico (bytes a) (bytes b).

Global Instance less_dec : RelDecision less.
Proof. intros a b. unfold less. apply _. Defined.

(** [sort.Slice(mKeys, less)]: the keys of a map are distinct, so every
    sorting algorithm leaves them in the same order; on entries, by key. *)
Definition sorted {A : Type} (entries : list (string * A)) : list (string * A) :=
  merge_sort (λ e1 e2, ¬ less e2.1 e1.1) entries.

(** [key, _, _ := strings.Cut(field.Tag.Get("json"), ","); if key == "" { key
    = field.Name }]. *)
Definition fieldKey (field : StructField) : string :=
  match SplitN (jsonTag field) "," 2 with
  | key :: _ => if decide (key = "") then FieldName field else key
  | [] => FieldName field
  end.

(** The loop of the Map case once the values are marshalled: the first error
    in the order of the keys, or the dict with every key set. *)
Fixpoint setKeys (entries : list (string * outcome Value)) (d : list (Value * Value)) :
    outcome Value :=
  match entries with
  | [] => Done (Dict d)
  | (k, Failed err) :: _ => Failed err
  | (k, Done dv) :: rest => setKeys rest (SetKey d k dv)
  end.

(** [starlarkMarshal]: [parent] is the dict of the struct whose embedded
    struct [input] is, if any.  The values of a map are marshalled as the loop
    over the sorted keys reaches them; here each is marshalled where it
    stands and the results are visited in the order of the keys, which gives
    the same dict and the same first error. *)
Fixpoint starlarkMarshal (input : GoValue) (parent : option (list (Value * Value))) :
    outcome Value :=
  match input with
  | Nil => Done None_
  | Starlark _ sv => Done sv
  | GoString s => Done (String_ s)
  | GoInt n => Done (Int n)
  | GoUint n => Done (Int n)
  | GoFloat f => Done (Float f)
  | GoBool b => Done (Bool b)
  | Slice elems =>
      (fix loop (elems : list GoValue) (listElems : list Value) : outcome Value :=
         match elems with
         | [] => Done (List listElems)
         | elem :: rest =>
             match starlarkMarshal elem None with
             | Failed err => Failed err
             | Done lv => loop rest (listElems ++ [lv])%list
             end
         end) elems []
  | Map keyKind entries =>
      if decide (keyKind ≠ "string") then Failed (OnlyStringKeys keyKind)
      else
        setKeys
          (sorted
             ((fix values (entries : list (string * GoValue)) :
                   list (string * outcome Value) :=
                 match entries with
                 | [] => []
                 | (k, mv) :: rest => (k, starlarkMarshal mv None) :: values rest
                 end) entries))
          []
  | Struct typeName fields =>
      match
        (fix loop (fields : list (StructField * GoValue)) (d : list (Value * Value)) :
             outcome (list (Value * Value)) :=
           match fields with
           | [] => Done d
           | (field, fieldValue) :: rest =>
               if negb (IsExported field) then loop rest d
               else
                 match fieldValue with
                 | Struct _ _ =>
                     if Anonymous field then
                       (* the call sets the fields of the embedded struct on [d] *)
                       match starlarkMarshal fieldValue (Some d) with
                       | Failed err => Failed err
                       | Done (Dict d') => loop rest d'
                       | Done _ => loop rest d
                       end
                     else
                       match starlarkMarshal fieldValue None with
                       | Failed err => Failed err
                       | Done dv => loop rest (SetKey d (fieldKey field) dv)
                       end
                 | Starlark true _ =>
                     if Anonymous field then
                       (* the call returns the value as it is: nothing is set *)
                       loop rest d
                     else
                       match starlarkMarshal fieldValue None with
                       | Failed err => Failed err
                       | Done dv => loop rest (SetKey d (fieldKey field) dv)
                       end
                 | _ =>
                     match starlarkMarshal fieldValue None with
                     | Failed err => Failed err
                     | Done dv => loop rest (SetKey d (fieldKey field) dv)
                     end
                 end
           end) fields (default [] parent)
      with
      | Failed err => Failed err
      | Done d =>
          match parent with
          | None => Done (starlarkObject d typeName)
          | Some _ => Done (Dict d)
          end
      end
  | Pointer None => Done None_
  | Pointer (Some elem) => starlarkMarshal elem None
  | Other typeName => Failed (UnrecognisedType typeName)
  end.

(** [StarlarkMarshal]. *)
Definition StarlarkMarshal (input : GoValue) : outcome Value :=
  starlarkMarshal input None.

(** The loops of [starlarkMarshal], by name: over the elements of a slice,
    over the values of a map, and over the fields of a struct. *)
Fixpoint sliceLoop (elems : list GoValue) (listElems : list Value) : outcome Value :=
  match elems with
  | [] => Done (List listElems)
  | elem :: rest =>
      match starlarkMarshal elem None with
      | Failed err => Failed err
      | Done lv => sliceLoop rest (listElems ++ [lv])%list
      end
  end.

Fixpoint mapValues (entries : list (string * GoValue)) : list (string * outcome Value) :=
  match entries with
  | [] => []
  | (k, mv) :: rest => (k, starlarkMarshal mv None) :: mapValues rest
  end.

Fixpoint fieldsLoop (fields : list (StructField * GoValue)) (d : list (Value * Value)) :
    outcome (list (Value * Value)) :=
  match fields with
  | [] => Done d
  | (field, fieldValue) :: rest =>
      if negb (IsExported field) then fieldsLoop rest d
      else
        match fieldValue with
        | Struct _ _ =>
            if Anonymous field then
              match starlarkMarshal fieldValue (Some d) with
              | Failed err => Failed err
              | Done (Dict d') => fieldsLoop rest d'
              | Done _ => fieldsLoop rest d
              end
            else
              match starlarkMarshal fieldValue None with
              | Failed err => Failed err
              | Done dv => fieldsLoop rest (SetKey d (fieldKey field) dv)
              end
        | Starlark true _ =>
            if Anonymous field then fieldsLoop rest d
            else
              match starlarkMarshal fieldValue None with
              | Failed err => Failed err
              | Done dv => fieldsLoop rest (SetKey d (fieldKey field) dv)
              end
        | _ =>
            match starlarkMarshal fieldValue None with
            | Failed err => Failed err
            | Done dv => fieldsLoop rest (SetKey d (fieldKey field) dv)
            end
        end
  end.

(** [starlark.Int.Int64]: the value when it is an int64; what it returns
    otherwise is not specified, and is [inexact n] here. *)
Context (inexact : Z → Z).

Definition Int64 (n : Z) : Z :=
  if (- 2 ^ 63 <=? n)%Z && (n <? 2 ^ 63)%Z then n else inexact n.

(** The Go type of a starlark value, as [%T] and [Type()] print it. *)
Definition typeOf (v : Value) : string :=
  match v with
  | None_ => "NoneType"
  | Bool _ => "bool"
  | Int _ => "int"
  | Float _ => "float"
  | String_ _ => "string"
  | List _ => "list"
  | Dict _ => "dict"
  | starlarkObject _ typeName => typeName
  | Opaque_ goType => goType
  end.

(** [result[key] = value] on a Go map. *)
Fixpoint assign (entries : list (string * GoValue)) (k : string) (v : GoValue) :
    list (string * GoValue) :=
  match entries with
  | [] => [(k, v)]
  | (k', v') :: rest =>
      if decide (k' = k) then (k', v) :: rest else (k', v') :: assign rest k v
  end.

(** [StarlarkUnmarshal]: the result is [nil], a [bool], an [int64], a
    [float64], a [string], a [[]any] or a [map[string]any]. *)
Fixpoint StarlarkUnmarshal (input : Value) : outcome GoValue :=
  match input with
  | None_ => Done Nil
  | Bool b => Done (GoBool b)
  | Int n => Done (GoInt (Int64 n))
  | Float f => Done (GoFloat f)
  | String_ s => Done (GoString s)
  | List elems =>
      (fix loop (elems : list Value) (result : list GoValue) : outcome GoValue :=
         match elems with
         | [] => Done (Slice result)
         | elem :: rest =>
             match StarlarkUnmarshal elem with
             | Failed err => Failed err
             | Done value => loop rest (result ++ [value])%list
             end
         end) elems []
  | Dict items =>
      (fix loop (items : list (Value * Value)) (result : list (string * GoValue)) :
           outcome GoValue :=
         match items with
         | [] => Done (Map "string" result)
         | (dictKey, dictValue) :: rest =>
             match dictKey with
             | String_ key =>
                 match StarlarkUnmarshal dictValue with
                 | Failed err => Failed err
                 | Done value => loop rest (assign result key value)
                 end
             | _ => Failed (OnlyStringKeys (typeOf dictKey))
             end
         end) items []
  | starlarkObject _ _ => Failed (UnsupportedType "*scriptlet.starlarkObject")
  | Opaque_ goType => Failed (UnsupportedType goType)
  end.

(** The loops of [StarlarkUnmarshal], by name. *)
Fixpoint listLoop (elems : list Value) (result : list GoValue) : outcome GoValue :=
  match elems with
  | [] => Done (Slice result)
  | elem :: rest =>
      match StarlarkUnmarshal elem with
      | Failed err => Failed err
      | Done value => listLoop rest (result ++ [value])%list
      end
  end.

Fixpoint dictLoop (items : list (Value * Value)) (result : list (string * GoValue)) :
    outcome GoValue :=
  match items with
  | [] => Done (Map "string" result)
  | (dictKey, dictValue) :: rest =>
      match dictKey with
      | String_ key =>
          match StarlarkUnmarshal dictValue with
          | Failed err => Failed err
          | Done value => dictLoop rest (assign result key value)
          end
      | _ => Failed (OnlyStringKeys (typeOf dictKey))
      end
  end.


(** A Go value all of whose parts that [starlarkMarshal] looks at are of a
    kind it has a case for: the elements of a slice, the values of a map with
    string keys, the exported fields of a struct, and what a pointer points
    to. *)
Fixpoint supported (v : GoValue) : Prop :=
  match v with
  | Other _ => False
  | Slice elems =>
      (fix all (elems : list GoValue) : Prop :=
         match elems with
         | [] => True
         | elem :: rest => supported elem ∧ all rest
         end) elems
  | Map keyKind entries =>
      keyKind = "string"
      ∧ (fix all (entries : list (string * GoValue)) : Prop :=
           match entries with
           | [] => True
           | (_, mv) :: rest => supported mv ∧ all rest
           end) entries
  | Struct _ fields =>
      (fix all (fields : list (StructField * GoValue)) : Prop :=
         match fields with
         | [] => True
         | (field, fieldValue) :: rest =>
             (IsExported field = true → supported fieldValue) ∧ all rest
         end) fields
  | Pointer (Some elem) => supported elem
  | _ => True
  end.

(** The keys under which the exported fields of a struct are set. *)
Definition exportedKeys (fields : list (StructField * GoValue)) : list string :=
  (λ fd, fieldKey fd.1) <$> filter (λ fd, IsExported fd.1 = true) fields.

(** The order [sort.Slice] is given, on entries: [e1] may stand before [e2]. *)
Definition notAfter {A : Type} (e1 e2 : string * A) : Prop := ¬ less e2.1 e1.1.

(** The item of a dict for a string key. *)
Definition item (e : string * Value) : Value * Value := (String_ e.1, e.2).

(** [field.Anonymous && fieldValue.Kind() == reflect.Struct]. *)
Definition embedded (fd : StructField * GoValue) : bool :=
  Anonymous fd.1 &&
  match fd.2 with
  | Struct _ _ | Starlark true _ => true
  | _ => false
  end.

(** A starlark value that [StarlarkUnmarshal] has a case for, all the way
    down: None, a bool, an int, a float, a string, a list of such values, or
    a dict whose keys are strings and whose values are such values. *)
Fixpoint convertible (sv : Value) : Prop :=
  match sv with
  | None_ | Bool _ | Int _ | Float _ | String_ _ => True
  | List elems =>
      (fix all (elems : list Value) : Prop :=
         match elems with
         | [] => True
         | elem :: rest => convertible elem ∧ all rest
         end) elems
  | Dict items =>
      (fix all (items : list (Value * Value)) : Prop :=
         match items with
         | [] => True
         | (String_ _, dictValue) :: rest => convertible dictValue ∧ all rest
         | _ :: _ => False
         end) items
  | starlarkObject _ _ | Opaque_ _ => False
  end.

(** The call returned a value and a nil error. *)
Definition succeeds {A : Type} (o : outcome A) : Prop := ∃ a, o = Done a.


End Values.

Arguments Value F : clear implicits.
Arguments GoValue F : clear implicits.

End scriptlet.

(** ** A concrete world

    Instances of the collaborator classes, to run the operations on sample
    inputs: the parsers of package [net] and of [shared/validate] on the
    textual forms they accept, a store that is a finite map of ACLs with the
    references to them, and a control plane that can be made to fail. *)

Module Testbed.

Definition digit (c : Ascii.ascii) : option Z :=
  let n := Z.of_nat (Ascii.nat_of_ascii c) in
  if (48 <=? n)%Z && (n <=? 57)%Z then Some (n - 48)%Z else None.

Definition hexDigit (c : Ascii.ascii) : option Z :=
  let n := Z.of_nat (Ascii.nat_of_ascii c) in
  if (48 <=? n)%Z && (n <=? 57)%Z then Some (n - 48)%Z
  else if (97 <=? n)%Z && (n <=? 102)%Z then Some (n - 87)%Z
  else if (65 <=? n)%Z && (n <=? 70)%Z then Some (n - 55)%Z
  else None.

Fixpoint number (base : Z) (digitOf : Ascii.ascii → option Z) (s : string) (acc : Z) : option Z :=
  match s with
  | EmptyString => Some acc
  | String c rest =>
      match digitOf c with
      | Some v => number base digitOf rest (acc * base + v)%Z
      | None => None
      end
  end.

(** [strconv.ParseUint(s, 10, bits)]: decimal digits only, at least one, and
    the value fits. *)
Definition ParseUint (s : string) (bits : Z) : option Z :=
  if bool_decide (s = "") then None
  else match number 10 digit s 0 with
       | Some v => if (v <? 2 ^ bits)%Z then Some v else None
       | None => None
       end.

(** A field of a dotted IPv4 address: decimal, at most 255, no leading zero. *)
Definition octet (s : string) : option Z :=
  match ParseUint s 8 with
  | Some v => if (1 <? String.length s)%nat && String.prefix "0" s then None else Some v
  | None => None
  end.

Definition v4InV6Prefix : IP := [0; 0; 0; 0; 0; 0; 0; 0; 0; 0; 255; 255]%Z.

Definition parseIPv4 (s : string) : option IP :=
  match SplitN s "." (-1) with
  | [a; b; c; d] =>
      a ← octet a; b ← octet b; c ← octet c; d ← octet d;
      Some (v4InV6Prefix ++ [a; b; c; d])%list
  | _ => None
  end.

(** A group of an IPv6 address: one to four hexadecimal digits, as two bytes. *)
Definition group (s : string) : option (list Z) :=
  if bool_decide (s = "") || (4 <? String.length s)%nat then None
  else match number 16 hexDigit s 0 with
       | Some v => Some [v / 256; v mod 256]%Z
       | None => None
       end.

(** The groups of a colon-separated run; the last one may be a dotted IPv4
    address when [tail] is set. *)
Fixpoint groups (tail : bool) (parts : list string) : option (list Z) :=
  match parts with
  | [] => Some []
  | [last] =>
      match group last with
      | Some bytes => Some bytes
      | None => if tail then drop 12 <$> parseIPv4 last else None
      end
  | part :: rest =>
      bytes ← group part; more ← groups tail rest; Some (bytes ++ more)%list
  end.

Definition run (tail : bool) (s : string) : option (list Z) :=
  if bool_decide (s = "") then Some [] else groups tail (SplitN s ":" (-1)).

Definition parseIPv6 (s : string) : option IP :=
  match SplitN s "::" (-1) with
  | [all] =>
      bytes ← groups true (SplitN all ":" (-1));
      if (length bytes =? 16)%nat then Some bytes else None
  | [before; after] =>
      l ← run false before; r ← run true after;
      if (length l + length r <? 16)%nat
      then Some (l ++ replicate (16 - length l - length r) 0%Z ++ r)%list
      else None
  | _ => None
  end.

Definition contains (c : string) (s : string) : bool :=
  (1 <? length (SplitN s c (-1)))%nat.

(** [net.ParseIP]. *)
Definition ParseIP (s : string) : option IP :=
  if contains ":" s then parseIPv6 s
  else if contains "." s then parseIPv4 s
  else None.

(** [net.ParseCIDR]: an address, a slash, and a prefix length within the
    address's width; the address is returned. *)
Definition ParseCIDR (s : string) : result IP :=
  match SplitN s "/" 2 with
  | [addr; mask] =>
      match ParseIP addr, ParseUint mask 8 with
      | Some ip, Some n =>
          if (n <=? (if bool_decide (is_Some (To4 ip)) then 32 else 128))%Z
             && negb ((1 <? String.length mask)%nat && String.prefix "0" mask)
          then Ok ip
          else Err (ErrExternal "invalid CIDR address")
      | _, _ => Err (ErrExternal "invalid CIDR address")
      end
  | _ => Err (ErrExternal "invalid CIDR address")
  end.

Fixpoint bytesLe (a b : list Z) : bool :=
  match a, b with
  | x :: a, y :: b => (x <? y)%Z || ((x =? y)%Z && bytesLe a b)
  | [], _ => true
  | _, [] => false
  end.

(** [validate.IsNetworkRange]: two addresses of one family around a single
    dash, the first not after the second. *)
Definition IsNetworkRange (value : string) : option error :=
  match SplitN value "-" 2 with
  | [first; last] =>
      match ParseIP first, ParseIP last with
      | Some a, Some b =>
          if negb (bool_decide (is_Some (To4 a) ↔ is_Some (To4 b)))
          then Some (ErrExternal "Start and end IP addresses are not in same family")
          else if bytesLe a b then None
          else Some (ErrExternal "Start IP address must be before or equal to end IP address")
      | _, _ => Some (ErrExternal "Not an IP address")
      end
  | _ => Some (ErrExternal "IP range must contain start and end IP addresses")
  end.

(** [validate.IsNetworkPort], [validate.IsNetworkPortRange], [validate.IsUint8]. *)
Definition IsNetworkPort (value : string) : option error :=
  match ParseUint value 16 with
  | Some _ => None
  | None => Some (ErrExternal "Invalid value for an integer")
  end.

Definition IsNetworkPortRange (value : string) : option error :=
  match SplitN value "-" 2 with
  | [first] =>
      match ParseUint first 16 with
      | Some _ => None
      | None => Some (ErrExternal "Invalid port number")
      end
  | [first; last] =>
      match ParseUint first 16, ParseUint last 16 with
      | Some a, Some b =>
          if (a <=? b)%Z then None
          else Some (ErrExternal "Start port must be lower than or equal to end port")
      | _, _ => Some (ErrExternal "Invalid port number")
      end
  | _ => Some (ErrExternal "Port range must contain start and end port numbers")
  end.

Definition IsUint8 (value : string) : option error :=
  match ParseUint value 8 with
  | Some _ => None
  | None => Some (ErrExternal "Invalid value for an integer")
  end.

(** [shared.IsUserConfig]: the key starts with [user.]. *)
Definition IsUserConfig (key : string) : bool := String.prefix "user." key.

Definition isSpace (c : Ascii.ascii) : bool :=
  let n := Ascii.nat_of_ascii c in
  (n =? 32)%nat || ((9 <=? n)%nat && (n <=? 13)%nat).

Fixpoint trimLeft (s : string) : string :=
  match s with
  | EmptyString => ""
  | String c rest => if isSpace c then trimLeft rest else s
  end.

(** [strings.TrimSpace], on ASCII white space. *)
Definition TrimSpace (s : string) : string :=
  String.rev (trimLeft (String.rev (trimLeft s))).

(** [util.SplitNTrimSpace]. *)
Definition SplitNTrimSpace (s sep : string) (n : Z) (nilIfEmpty : bool) : list string :=
  if nilIfEmpty && bool_decide (s = "") then []
  else map TrimSpace (SplitN s sep n).

Fixpoint Join (parts : list string) (sep : string) : string :=
  match parts with
  | [] => ""
  | [part] => part
  | part :: rest => part +:+ sep +:+ Join rest sep
  end.

(** Modelled from the spec: [api.NetworkACLRule.Normalise] (spec, Rule: the
    fields are trimmed; subject and port lists are split on commas, each
    token trimmed, and joined again). *)
Definition Normalise (r : NetworkACLRule) : NetworkACLRule :=
  let list s := Join (SplitNTrimSpace s "," (-1) true) "," in
  mkRule (TrimSpace (Action r)) (list (Source r)) (list (Destination r))
         (TrimSpace (Protocol r)) (list (SourcePort r)) (list (DestinationPort r))
         (TrimSpace (ICMPType r)) (TrimSpace (ICMPCode r)) (TrimSpace (State r)).

Definition hostChar (c : Ascii.ascii) : bool :=
  let n := Ascii.nat_of_ascii c in
  (n =? 45)%nat || ((48 <=? n)%nat && (n <=? 57)%nat)
  || ((65 <=? n)%nat && (n <=? 90)%nat) || ((97 <=? n)%nat && (n <=? 122)%nat).

(** [shared.ValidHostname]: 1 to 63 letters, digits and dashes, no dash at
    either end, no digit first. *)
Definition ValidHostname (name : string) : option error :=
  if bool_decide (name = "") || (63 <? String.length name)%nat
  then Some (ErrExternal "Name must be 1-63 characters long")
  else if String.prefix "-" name || String.prefix "-" (String.rev name)
  then Some (ErrExternal "Name must not start or end with a dash")
  else if forallb hostChar (String.list_ascii_of_string name)
          && negb (from_option (λ c, bool_decide (is_Some (digit c))) false
                               (head (String.list_ascii_of_string name)))
  then None
  else Some (ErrExternal "Name can only contain alphanumeric and hyphen characters").

Global Instance validators : Validators :=
  Build_Validators ParseIP ParseCIDR IsNetworkRange IsNetworkPort IsNetworkPortRange
                   IsUint8 IsUserConfig ValidHostname SplitNTrimSpace Normalise.

Global Instance mapRange : MapRange.
Proof. by refine {| rangeMap := λ V m, map_to_list m |}. Defined.

Global Instance constants : Constants :=
  {| APIVersion := "1.0"; projectDefault := "default" |}.

(** The store: the ACLs by id with their project, who refers to which ACL
    name, which networks each ACL name reaches, and how many more writes the
    store accepts. *)
Record store : Type := mkStore {
  acls : gmap Z (string * NetworkACL);
  refs : list (string * usageType);
  nets : list (string * (string * NetworkACLUsage));
  quota : nat
}.

Definition idsByNames (s : store) (project : string) : gmap string Z :=
  list_to_map
    (omap (λ e : Z * (string * NetworkACL),
             if bool_decide (e.2.1 = project) then Some (Name e.2.2, e.1) else None)
          (map_to_list (acls s))).

Definition spend (s : store) (acls' : gmap Z (string * NetworkACL)) : store :=
  mkStore acls' (refs s) (nets s) (pred (quota s)).

Definition write (s : store) (id : Z)
    (f : string * NetworkACL → option (string * NetworkACL)) : store * option error :=
  match quota s, acls s !! id with
  | O, _ => (s, Some (ErrExternal "database is locked"))
  | _, None => (s, Some (ErrExternal "Network ACL not found"))
  | _, Some e =>
      (spend s (match f e with
                | Some e => <[id := e]> (acls s)
                | None => delete id (acls s)
                end), None)
  end.

Definition storedACL (s : store) (id : Z) : option NetworkACL :=
  snd <$> acls s !! id.

Definition loadByName (s : store) (project name : string) : result common :=
  match idsByNames s project !! name with
  | Some id =>
      match storedACL s id with
      | Some acl => Ok (init id project (Some acl))
      | None => Err (ErrExternal "Network ACL not found")
      end
  | None => Err (ErrExternal "Network ACL not found")
  end.

Global Instance cluster : Cluster store := {|
  GetNetworkACLIDsByNames s project := Ok (idsByNames s project);
  UpdateNetworkACL s id config :=
    write s id (λ e, Some (e.1, mkACL (Name e.2) config (UsedByField e.2)));
  RenameNetworkACL s id newName :=
    write s id (λ e, Some (e.1, mkACL newName (Put e.2) (UsedByField e.2)));
  DeleteNetworkACL s id := write s id (λ _, None);
  LoadByName := loadByName;
  usages s project names :=
    (omap (λ r : string * usageType,
             if bool_decide (r.1 ∈ names) then Some r.2 else None) (refs s), None);
  NetworkUsage s project names aclNets :=
    (foldr (λ (n : string * (string * NetworkACLUsage)) acc,
              if bool_decide (n.1 ∈ names) then <[n.2.1 := n.2.2]> acc else acc)
           aclNets (nets s), None)
|}.

(** The control plane: whether it can be reached, whether it applies what it
    is asked to, and the ACLs it has port groups for. *)
Record plane : Type := mkPlane {
  reachable : bool;
  applies : bool;
  portGroups : list string
}.

Global Instance ovn : OVN store plane := {|
  NewOVN _ p :=
    if reachable p then None else Some (ErrExternal "Failed to connect to OVN");
  OVNEnsureACLs _ p project aclNameIDs aclNets aclNames mustExist :=
    if applies p
    then (mkPlane (reachable p) (applies p) (aclNames ++ portGroups p)%list,
          Ok (λ p', mkPlane (reachable p') (applies p') (portGroups p)))
    else (p, Err (ErrExternal "OVN transaction failed"));
  OVNPortGroupDeleteIfUnused _ p project keep := (p, None)
|}.

End Testbed.

(** ** Sample values *)

Module Samples.
Import Testbed.

(** The rule of the spec's scenario: web traffic from a subnet to the
    instances of the network. *)
Definition webRule : NetworkACLRule :=
  mkRule "allow" "10.0.0.0/24" "@internal" "tcp" "" "80,443" "" "" "enabled".

Definition webRuleICMP : NetworkACLRule :=
  mkRule "allow" "10.0.0.0/24" "@internal" "icmp4" "" "80" "" "" "enabled".

(** A rule whose source is a reserved classifier. *)
Definition fromInternal : NetworkACLRule :=
  mkRule "allow" "@internal" "" "" "" "" "" "" "enabled".

(** An IPv6 source with a destination of both families. *)
Definition mixedDestination : NetworkACLRule :=
  mkRule "allow" "2001:db8::1" "10.0.0.1,2001:db8::2" "" "" "" "" "" "enabled".

(** An IPv4 source with a destination that is an IPv4 address and a name. *)
Definition namedDestination : NetworkACLRule :=
  mkRule "allow" "10.0.0.1" "10.0.0.2,@internal" "" "" "" "" "" "enabled".

(** An ICMPv4 rule between two IPv6 addresses. *)
Definition pingSix : NetworkACLRule :=
  mkRule "allow" "2001:db8::1" "2001:db8::2" "icmp4" "" "" "8" "0" "enabled".

(** The rules of the spec's scenario on address families. *)
Definition twoFamilies : NetworkACLRule :=
  mkRule "allow" "192.0.2.0/24" "2001:db8::/32" "" "" "" "" "" "enabled".

Definition toExternal : NetworkACLRule :=
  mkRule "allow" "192.0.2.0/24" "@external" "" "" "" "" "" "enabled".

(** Web traffic from a subnet. *)
Definition fromSubnet : NetworkACLRule :=
  mkRule "allow" "10.0.0.0/24" "" "tcp" "" "80,443" "" "" "enabled".

(** The same rule as it may be written, with white space. *)
Definition fromSubnetSpaced : NetworkACLRule :=
  mkRule " allow" "10.0.0.0/24 " "" "tcp " "" "80, 443" "" "" "enabled".

(** A rule-set with the same ingress rule at indexes 0 and 2, and once more
    as an egress rule. *)
Definition repeated : NetworkACLPut :=
  mkPut "" (Some [fromSubnet; fromInternal; fromSubnetSpaced]) (Some [fromSubnet]) None.

Definition webACL : NetworkACL :=
  mkACL "web" (mkPut "web servers" (Some [fromInternal]) (Some []) (Some ∅)) None.

Definition ovnNet : NetworkACLUsage := mkUsage 7 "ovn1" "ovn" ∅.

(** A store that holds the ACL [web] under id 1, attached to one OVN
    network and used by one instance. *)
Definition store1 : store :=
  mkStore {[ 1%Z := ("default", webACL) ]}
          [("web", UInstance "c1" "default")]
          [("web", ("ovn1", ovnNet))]
          8.

(** The same store with nothing that refers to the ACL. *)
Definition store0 : store :=
  mkStore {[ 1%Z := ("default", webACL) ]} [] [] 8.

(** A store that holds the same ACL under another id. *)
Definition store2 : store :=
  mkStore {[ 5%Z := ("default", webACL) ]} [] [] 8.

Definition web : common := init 1 "default" (Some webACL).

(** A control plane that is reachable but fails what it is asked to apply. *)
Definition failing : plane := mkPlane true false [].

Definition working : plane := mkPlane true true [].

End Samples.

(** ** Vocabulary of the properties *)

Section Vocabulary.
Context `{Validators}.

(** A subject is an address when one of the three address checks accepts it. *)
Definition isAddress (subject : string) : Prop :=
  is_Some (firstCheck checks subject).

(** A subject is a name when no address check accepts it and it is among the
    valid names: a reserved classifier or an ACL of the project. *)
Definition isName (validSubjectNames : list string) (subject : string) : Prop :=
  firstCheck checks subject = None ∧ subject ∈ validSubjectNames.

Definition validToken (validSubjectNames : list string) (subject : string) : Prop :=
  isAddress subject ∨ isName validSubjectNames subject.

(** The subjects of one side include a subject of IP version [v] (4 or 6), or
    a name ([v = 0]). *)
Definition includes (fieldName : string) (direction : ruleDirection)
    (validSubjectNames subjects : list string) (v : Z) : Prop :=
  ∃ s, s ∈ subjects ∧ validSubject fieldName direction validSubjectNames s = Ok v.

End Vocabulary.


Section HandleVocabulary.
Context `{Validators}.

(** The collections of a handle are there: none of the two rule sequences
    and the config map is nil. *)
Definition neverNil (d : common) : Prop :=
  is_Some (Ingress (Put (info d))) ∧ is_Some (Egress (Put (info d)))
  ∧ is_Some (Config (Put (info d))).

(** Every rule of the handle is a rule as [Normalise] leaves it. *)
Definition rulesNormalised (d : common) : Prop :=
  Forall (λ rule, ∃ rule0, rule = Normalise rule0) (elems (Ingress (Put (info d))))
  ∧ Forall (λ rule, ∃ rule0, rule = Normalise rule0) (elems (Egress (Put (info d)))).

(** The proposal as validation leaves it, with its rules normalised. *)
Definition normalised (config : NetworkACLPut) : NetworkACLPut :=
  mkPut (Description config) (normaliseAll (Ingress config))
        (normaliseAll (Egress config)) (Config config).


End HandleVocabulary.

(** The family-conflict condition in the words of the spec, on the flags
    (names, IPv4, IPv6) of the two sides: "one side is IPv4-only and the other
    side is neither IPv4 nor name-only (symmetric check for IPv6)". *)
Definition onlyIPv4 (side : bool * bool * bool) : bool :=
  let '(n, v4, v6) := side in v4 && negb v6 && negb n.

Definition onlyIPv6 (side : bool * bool * bool) : bool :=
  let '(n, v4, v6) := side in v6 && negb v4 && negb n.

Definition onlyNames (side : bool * bool * bool) : bool :=
  let '(n, v4, v6) := side in n && negb v4 && negb v6.

(** "Neither IPv4" read as: the other side has no IPv4 address. *)
Definition statedConflict (src dst : bool * bool * bool) : bool :=
  (onlyIPv4 src && negb dst.1.2 && negb (onlyNames dst))
  || (onlyIPv4 dst && negb src.1.2 && negb (onlyNames src))
  || (onlyIPv6 src && negb dst.2 && negb (onlyNames dst))
  || (onlyIPv6 dst && negb src.2 && negb (onlyNames src)).

(** "Neither IPv4" read as: the other side is not IPv4-only. *)
Definition statedConflictLoose (src dst : bool * bool * bool) : bool :=
  (onlyIPv4 src && negb (onlyIPv4 dst) && negb (onlyNames dst))
  || (onlyIPv4 dst && negb (onlyIPv4 src) && negb (onlyNames src))
  || (onlyIPv6 src && negb (onlyIPv6 dst) && negb (onlyNames dst))
  || (onlyIPv6 dst && negb (onlyIPv6 src) && negb (onlyNames src)).

(** * Properties *)

(** ** Helpers *)

Lemma StringInSlice_elem_of (key : string) (l : list string) :
  StringInSlice key l = true ↔ key ∈ l.
Proof.
  induction l as [|entry rest IH]; simpl.
  - split; [done | by intros ?%elem_of_nil].
  - rewrite elem_of_cons. destruct (decide (entry = key)) as [->|Hne].
    + naive_solver.
    + rewrite IH. naive_solver.
Qed.

Lemma StringInSlice_false (key : string) (l : list string) :
  StringInSlice key l = false ↔ key ∉ l.
Proof.
  rewrite <- StringInSlice_elem_of. destruct (StringInSlice key l); naive_solver.
Qed.

Lemma bool_decide_ne_empty (s : string) :
  s ≠ "" → bool_decide (s ≠ "") = true.
Proof. intros. by apply bool_decide_eq_true. Qed.

(** ** The rule validator *)

Section RuleProperties.
Context `{Validators} `{MapRange} {Store : Type} `{Cluster Store}.

(** Whatever the subjects are, a rule passes only if its protocol-dependent
    fields do. *)
Lemma validateRule_fields cluster d direction rule :
  validateRule cluster d direction rule = None →
  ∃ s4 s6 d4 d6, validateProtocolFields rule s4 s6 d4 d6 = None.
Proof.
  unfold validateRule. intros Hv.
  repeat (case_match; try done); eauto 10.
Qed.

Lemma validateProtocolFields_tcp_udp rule s4 s6 d4 d6 :
  Protocol rule ∈ ["tcp"; "udp"] →
  validateProtocolFields rule s4 s6 d4 d6 =
    if bool_decide (ICMPType rule ≠ "") then Some (Errorf MsgICMPTypeNonICMP)
    else if bool_decide (ICMPCode rule ≠ "") then Some (Errorf MsgICMPCodeNonICMP)
    else match (if bool_decide (SourcePort rule ≠ "")
                then validatePorts (SplitNTrimSpace (SourcePort rule) "," (-1) false)
                else None) with
         | Some err => Some (Wrapf err MsgInvalidSourcePort)
         | None =>
             match (if bool_decide (DestinationPort rule ≠ "")
                    then validatePorts (SplitNTrimSpace (DestinationPort rule) "," (-1) false)
                    else None) with
             | Some err => Some (Wrapf err MsgInvalidDestinationPort)
             | None => None
             end
         end.
Proof.
  intros Hp. unfold validateProtocolFields.
  assert (Protocol rule = "tcp" ∨ Protocol rule = "udp") as [-> | ->]
    by set_solver; reflexivity.
Qed.

Lemma validateProtocolFields_icmp_ports rule s4 s6 d4 d6 :
  Protocol rule ∈ ["icmp4"; "icmp6"] →
  SourcePort rule ≠ "" ∨ DestinationPort rule ≠ "" →
  validateProtocolFields rule s4 s6 d4 d6 =
    Some (Errorf (if bool_decide (SourcePort rule ≠ "")
                  then MsgSourcePortWithProtocol (Protocol rule)
                  else MsgDestinationPortWithProtocol (Protocol rule))).
Proof.
  intros Hp Hports. unfold validateProtocolFields.
  assert (Protocol rule = "icmp4" ∨ Protocol rule = "icmp6") as [Heq | Heq]
    by set_solver; rewrite Heq; simpl;
    destruct Hports as [Hs | Hd];
    repeat case_bool_decide; try done.
Qed.

Lemma validateProtocolFields_no_protocol rule s4 s6 d4 d6 :
  Protocol rule = "" →
  validateProtocolFields rule s4 s6 d4 d6 =
    if bool_decide (ICMPType rule ≠ "") then Some (Errorf MsgICMPTypeNoProtocol)
    else if bool_decide (ICMPCode rule ≠ "") then Some (Errorf MsgICMPCodeNoProtocol)
    else if bool_decide (SourcePort rule ≠ "") then Some (Errorf MsgSourcePortNoProtocol)
    else if bool_decide (DestinationPort rule ≠ "")
    then Some (Errorf MsgDestinationPortNoProtocol)
    else None.
Proof. intros Hp. unfold validateProtocolFields. by rewrite Hp. Qed.

Lemma validateProtocolFields_unknown rule s4 s6 d4 d6 :
  Protocol rule ∉ [""; "tcp"; "udp"; "icmp4"; "icmp6"] →
  validateProtocolFields rule s4 s6 d4 d6 = Some (Errorf MsgProtocolMustBeOneOf).
Proof.
  intros Hp. unfold validateProtocolFields.
  rewrite bool_decide_eq_true_2 by set_solver.
  assert (StringInSlice (Protocol rule) ["icmp4"; "icmp6"; "tcp"; "udp"] = false) as ->.
  { apply StringInSlice_false. set_solver. }
  done.
Qed.

(** C5. For every rule, whatever the direction and the store: with protocol
    tcp or udp the rule is refused when an ICMP type or an ICMP code is set;
    with protocol icmp4 or icmp6 it is refused when a source or destination
    port is set; with no protocol it is refused when any of the four is set.
    The three classes and the unknown protocols, which are refused as well,
    cover every rule. *)
Theorem validateRule_protocol_partition cluster d direction rule :
  (Protocol rule ∈ ["tcp"; "udp"] →
   ICMPType rule ≠ "" ∨ ICMPCode rule ≠ "" →
   is_Some (validateRule cluster d direction rule))
  ∧ (Protocol rule ∈ ["icmp4"; "icmp6"] →
     SourcePort rule ≠ "" ∨ DestinationPort rule ≠ "" →
     is_Some (validateRule cluster d direction rule))
  ∧ (Protocol rule = "" →
     ICMPType rule ≠ "" ∨ ICMPCode rule ≠ "" ∨ SourcePort rule ≠ ""
     ∨ DestinationPort rule ≠ "" →
     is_Some (validateRule cluster d direction rule))
  ∧ (Protocol rule ∉ [""; "tcp"; "udp"; "icmp4"; "icmp6"] →
     is_Some (validateRule cluster d direction rule)).
Proof.
  assert (∀ P : Prop,
    (P → ∀ s4 s6 d4 d6, validateProtocolFields rule s4 s6 d4 d6 ≠ None) →
    P → is_Some (validateRule cluster d direction rule)) as Hfail.
  { intros P HP HPp.
    destruct (validateRule cluster d direction rule) eqn:Hv; [by eexists|].
    apply validateRule_fields in Hv as (s4 & s6 & d4 & d6 & Hv).
    by destruct (HP HPp s4 s6 d4 d6). }
  split_and!.
  - intros Hp. apply Hfail. intros Hset s4 s6 d4 d6.
    rewrite validateProtocolFields_tcp_udp by done.
    destruct Hset; repeat case_bool_decide; done.
  - intros Hp. apply Hfail. intros Hset s4 s6 d4 d6.
    by rewrite validateProtocolFields_icmp_ports.
  - intros Hp. apply Hfail. intros Hset s4 s6 d4 d6.
    rewrite validateProtocolFields_no_protocol by done.
    destruct Hset as [?|[?|[?|?]]]; repeat case_bool_decide; done.
  - apply Hfail. intros Hp s4 s6 d4 d6.
    by rewrite validateProtocolFields_unknown.
Qed.

End RuleProperties.

(** ** Subjects *)

Section SubjectProperties.
Context `{Validators} `{MapRange} {Store : Type} `{Cluster Store}.

Lemma allowSubjectNames_spec fieldName direction :
  allowSubjectNames fieldName direction = true ↔
  (fieldName = "Source" ∧ direction = ruleDirectionIngress)
  ∨ (fieldName = "Destination" ∧ direction = ruleDirectionEgress).
Proof. unfold allowSubjectNames. by rewrite bool_decide_eq_true. Qed.

Lemma subjectName_elem_of fieldName direction names s :
  s ∈ names →
  subjectName fieldName direction names s =
    if allowSubjectNames fieldName direction then Ok 0%Z
    else Err (Errorf (MsgNamedSubjectsNotAllowed fieldName direction)).
Proof.
  induction names as [|n rest IH]; [by intros ?%elem_of_nil|].
  intros [->|Hin]%elem_of_cons; simpl.
  - by rewrite decide_True.
  - destruct (decide (s = n)); [done | by apply IH].
Qed.

Lemma subjectName_not_elem_of fieldName direction names s :
  s ∉ names →
  subjectName fieldName direction names s = Err (Errorf (MsgInvalidSubject s)).
Proof.
  induction names as [|n rest IH]; [done|].
  intros [Hne Hnin]%not_elem_of_cons. simpl.
  rewrite decide_False by done. by apply IH.
Qed.

(** A subject that no address check accepts and that is a valid name is
    accepted as a name when names are allowed, and refused otherwise. *)
Lemma validSubject_name fieldName direction names s :
  isName names s →
  validSubject fieldName direction names s =
    if allowSubjectNames fieldName direction then Ok 0%Z
    else Err (Errorf (MsgNamedSubjectsNotAllowed fieldName direction)).
Proof.
  intros [Hno Hin]. unfold validSubject. rewrite Hno.
  by apply subjectName_elem_of.
Qed.

Lemma validSubject_address fieldName direction names s :
  isAddress s → ∃ v, validSubject fieldName direction names s = Ok v.
Proof. intros [v Hv]. exists v. unfold validSubject. by rewrite Hv. Qed.

(** The subjects loop only sets flags: a flag that is set stays set. *)
Lemma subjectsLoop_hasName fieldName direction names subjects n v4 v6 r :
  subjectsLoop fieldName direction names subjects n v4 v6 = Ok r →
  n = true → r.1.1 = true.
Proof.
  revert n v4 v6. induction subjects as [|s rest IH]; intros n v4 v6; simpl.
  - by intros [= <-].
  - destruct (validSubject _ _ _ s) as [v|]; [|done].
    repeat case_match; intros Hr Hn; eapply IH; eauto.
Qed.

(** When names are allowed, subjects that are all addresses or valid names
    pass, and a name among them sets the name flag. *)
Lemma subjectsLoop_allowed fieldName direction names subjects n v4 v6 :
  allowSubjectNames fieldName direction = true →
  Forall (validToken names) subjects →
  ∃ r, subjectsLoop fieldName direction names subjects n v4 v6 = Ok r
       ∧ ((∃ s, s ∈ subjects ∧ isName names s) → r.1.1 = true).
Proof.
  intros Hallow Hall. revert n v4 v6.
  induction Hall as [|s rest Hs Hrest IH]; intros n v4 v6; simpl.
  - eexists. split; [done|]. by intros (s & ?%elem_of_nil & _).
  - destruct Hs as [Haddr | Hname].
    + destruct (validSubject_address fieldName direction names s Haddr) as [v ->].
      assert (¬ isName names s) as Hnot.
      { intros [Hno _]. destruct Haddr as [? Hv]. congruence. }
      repeat case_match;
        (edestruct IH as (r & -> & Hr); eexists; split; [done|];
         intros (s' & [->|Hin]%elem_of_cons & Hs'); [done | eauto]).
    + rewrite (validSubject_name _ _ _ _ Hname), Hallow. simpl.
      edestruct IH as (r & Hr & _). exists r. split; [done|].
      intros _. by eapply subjectsLoop_hasName.
Qed.

(** When names are not allowed, a name among subjects that are all addresses
    or valid names is refused, as a named subject. *)
Lemma subjectsLoop_refused fieldName direction names subjects n v4 v6 :
  allowSubjectNames fieldName direction = false →
  Forall (validToken names) subjects →
  (∃ s, s ∈ subjects ∧ isName names s) →
  subjectsLoop fieldName direction names subjects n v4 v6 =
    Err (Errorf (MsgNamedSubjectsNotAllowed fieldName direction)).
Proof.
  intros Hallow Hall. revert n v4 v6.
  induction Hall as [|s rest Hs Hrest IH]; intros n v4 v6 (s' & Hin & Hs'); simpl.
  - by apply elem_of_nil in Hin.
  - destruct Hs as [Haddr | Hname].
    + destruct (validSubject_address fieldName direction names s Haddr) as [v ->].
      apply elem_of_cons in Hin as [->|Hin].
      { destruct Hs' as [Hno _], Haddr as [? Hv]. congruence. }
      repeat case_match; apply IH; eauto.
    + by rewrite (validSubject_name _ _ _ _ Hname), Hallow.
Qed.

End SubjectProperties.

Section NamedSubjects.
Context `{Validators} `{MapRange} {Store : Type} `{Cluster Store}.

(** The rule validator up to the subjects, for a rule whose action and state
    are valid and a store that answers. *)
Lemma validateRule_subjects cluster d direction rule acls :
  Action rule ∈ ValidActions →
  State rule ∈ ["enabled"; "disabled"; "logged"] →
  GetNetworkACLIDsByNames cluster (Project d) = Ok acls →
  validateRule cluster d direction rule =
    match (if bool_decide (Source rule ≠ "")
           then validateRuleSubjects "Source" direction
                  (SplitNTrimSpace (Source rule) "," (-1) false) (validNames acls)
           else Ok (false, false, false)) with
    | Err err => Some (Wrapf err MsgInvalidSource)
    | Ok (srcHasName, srcHasIPv4, srcHasIPv6) =>
        match (if bool_decide (Destination rule ≠ "")
               then validateRuleSubjects "Destination" direction
                      (SplitNTrimSpace (Destination rule) "," (-1) false) (validNames acls)
               else Ok (false, false, false)) with
        | Err err => Some (Wrapf err MsgInvalidDestination)
        | Ok (dstHasName, dstHasIPv4, dstHasIPv6) =>
            if bool_decide (Source rule ≠ "") && bool_decide (Destination rule ≠ "")
               && conflictingFamilies srcHasName srcHasIPv4 srcHasIPv6
                                      dstHasName dstHasIPv4 dstHasIPv6
            then Some (Errorf MsgConflictingFamilies)
            else validateProtocolFields rule srcHasIPv4 srcHasIPv6 dstHasIPv4 dstHasIPv6
        end
    end.
Proof.
  intros Ha Hs Hacls. unfold validateRule.
  apply StringInSlice_elem_of in Ha as ->. apply StringInSlice_elem_of in Hs as ->.
  by rewrite Hacls.
Qed.

(** C3. For every rule with a valid action and state, validated against a
    store that lists its ACL names: a subject that is a reserved classifier or
    an ACL name (and not an address), among subjects that are each an address
    or a valid name, is accepted as a name in the Source of an ingress rule
    and in the Destination of an egress rule; in the Source of an egress rule
    and in the Destination of an ingress rule it makes validation fail with
    the named-subjects-not-allowed error of that field and direction. *)
Theorem named_subject_permission cluster d direction rule acls s :
  Action rule ∈ ValidActions →
  State rule ∈ ["enabled"; "disabled"; "logged"] →
  GetNetworkACLIDsByNames cluster (Project d) = Ok acls →
  isName (validNames acls) s →
  let names := validNames acls in
  let src := SplitNTrimSpace (Source rule) "," (-1) false in
  let dst := SplitNTrimSpace (Destination rule) "," (-1) false in
  (Source rule ≠ "" → s ∈ src → Forall (validToken names) src →
   match direction with
   | ruleDirectionIngress =>
       ∃ v4 v6, validateRuleSubjects "Source" direction src names = Ok (true, v4, v6)
   | ruleDirectionEgress =>
       validateRule cluster d direction rule =
         Some (Wrapf (Errorf (MsgNamedSubjectsNotAllowed "Source" direction))
                     MsgInvalidSource)
   end)
  ∧ (Destination rule ≠ "" → s ∈ dst → Forall (validToken names) dst →
     match direction with
     | ruleDirectionEgress =>
         ∃ v4 v6, validateRuleSubjects "Destination" direction dst names = Ok (true, v4, v6)
     | ruleDirectionIngress =>
         (Source rule = "" ∨ ∃ r, validateRuleSubjects "Source" direction src names = Ok r) →
         validateRule cluster d direction rule =
           Some (Wrapf (Errorf (MsgNamedSubjectsNotAllowed "Destination" direction))
                       MsgInvalidDestination)
     end).
Proof.
  intros Ha Hs Hacls Hname names src dst. split.
  - intros Hsrc Hin Hall. destruct direction.
    + destruct (subjectsLoop_allowed "Source" ruleDirectionIngress names src
                  false false false) as ([[n v4] v6] & Hr & Hn); [done..|].
      exists v4, v6. unfold validateRuleSubjects. rewrite Hr.
      simpl in Hn. rewrite Hn; [done | eauto].
    + rewrite (validateRule_subjects _ _ _ _ _ Ha Hs Hacls).
      rewrite bool_decide_eq_true_2 by done.
      unfold validateRuleSubjects. fold names src.
      rewrite subjectsLoop_refused; [done..|eauto].
  - intros Hdst Hin Hall. destruct direction.
    + intros Hsource.
      rewrite (validateRule_subjects _ _ _ _ _ Ha Hs Hacls).
      fold names src dst.
      assert (∃ r, (if bool_decide (Source rule ≠ "")
                    then validateRuleSubjects "Source" ruleDirectionIngress src names
                    else Ok (false, false, false)) = Ok r) as [[[sn s4] s6] ->].
      { destruct Hsource as [-> | [r Hr]]; [by eexists|].
        case_bool_decide; eauto. }
      rewrite bool_decide_eq_true_2 by done.
      unfold validateRuleSubjects.
      rewrite subjectsLoop_refused; [done..|eauto].
    + destruct (subjectsLoop_allowed "Destination" ruleDirectionEgress names dst
                  false false false) as ([[n v4] v6] & Hr & Hn); [done..|].
      exists v4, v6. unfold validateRuleSubjects. rewrite Hr.
      simpl in Hn. rewrite Hn; [done | eauto].
Qed.

End NamedSubjects.

(** The named-subject rule at work: [@internal] as the source of an egress
    rule is refused, whatever the store holds. *)
Lemma named_subject_permission_witness :
  validateRule Samples.store0 Samples.web ruleDirectionEgress Samples.fromInternal =
    Some (Wrapf (Errorf (MsgNamedSubjectsNotAllowed "Source" ruleDirectionEgress))
                MsgInvalidSource).
Proof.
  refine (proj1 (named_subject_permission Samples.store0 Samples.web ruleDirectionEgress
                   Samples.fromInternal (Testbed.idsByNames Samples.store0 "default")
                   "@internal" _ _ _ _) _ _ _).
  - by apply list_elem_of_here.
  - by apply list_elem_of_here.
  - reflexivity.
  - split; [reflexivity | by apply list_elem_of_here].
  - done.
  - by apply list_elem_of_here.
  - apply Forall_cons. split; [|by apply Forall_nil].
    right. split; [reflexivity | by apply list_elem_of_here].
Defined.

(** ** Address families *)

Section Families.
Context `{Validators} `{MapRange} {Store : Type} `{Cluster Store}.

(** What the flags of the subjects loop say: a flag is set at the end when it
    was set at the start or a subject of its kind is among the subjects. *)
Lemma subjectsLoop_flags fieldName direction names subjects n v4 v6 n' v4' v6' :
  subjectsLoop fieldName direction names subjects n v4 v6 = Ok (n', v4', v6') →
  (n' = true ↔ n = true ∨ includes fieldName direction names subjects 0)
  ∧ (v4' = true ↔ v4 = true ∨ includes fieldName direction names subjects 4)
  ∧ (v6' = true ↔ v6 = true ∨ includes fieldName direction names subjects 6).
Proof.
  unfold includes. revert n v4 v6.
  induction subjects as [|s rest IH]; intros n v4 v6; simpl.
  - intros [= <- <- <-]. split_and!; (split; [auto | intros [?|(?&?%elem_of_nil&_)]; done]).
  - destruct (validSubject _ _ _ s) as [v|] eqn:Hs; [|done].
    assert (∀ (b b' a : bool) (w : Z),
      (b' = true ↔ a = true ∨
         ∃ s0, s0 ∈ rest ∧ validSubject fieldName direction names s0 = Ok w) →
      (a = true ↔ b = true ∨ v = w) →
      (b' = true ↔ b = true ∨
         ∃ s0, s0 ∈ s :: rest ∧ validSubject fieldName direction names s0 = Ok w))
      as Hstep.
    { intros b b' a w -> ->. split.
      - intros [[?| ->]|(s0 & ? & ?)]; [by left | right..].
        + exists s. split; [apply list_elem_of_here | done].
        + exists s0. split; [by apply list_elem_of_further | done].
      - intros [?|(s0 & [->|?]%elem_of_cons & Hv)]; [by left; left | |by right; eauto].
        left; right. congruence. }
    destruct (v =? 0)%Z eqn:Hv0; [|destruct (v =? 4)%Z eqn:Hv4'; [|destruct (v =? 6)%Z eqn:Hv6']];
      rewrite ?Z.eqb_eq, ?Z.eqb_neq in *;
      intros (Hn & Hv4 & Hv6)%IH;
      split_and!; (eapply Hstep; [eassumption|]);
      (split; [intros ?; first [by left | right; lia | done] | intros [?|?]; first [done | lia]]).
Qed.

Lemma validateRuleSubjects_flags fieldName direction names subjects n v4 v6 :
  validateRuleSubjects fieldName direction subjects names = Ok (n, v4, v6) →
  (n = true ↔ includes fieldName direction names subjects 0)
  ∧ (v4 = true ↔ includes fieldName direction names subjects 4)
  ∧ (v6 = true ↔ includes fieldName direction names subjects 6).
Proof.
  intros (Hn & Hv4 & Hv6)%subjectsLoop_flags. naive_solver.
Qed.

Lemma conflictingFamilies_spec (sn s4 s6 dn d4 d6 : bool) :
  conflictingFamilies sn s4 s6 dn d4 d6 = true ↔
  (s4 = true ∧ ¬ d4 = true ∧ ¬ dn = true) ∨ (d4 = true ∧ ¬ s4 = true ∧ ¬ sn = true)
  ∨ (s6 = true ∧ ¬ d6 = true ∧ ¬ dn = true) ∨ (d6 = true ∧ ¬ s6 = true ∧ ¬ sn = true).
Proof.
  unfold conflictingFamilies.
  rewrite !orb_true_iff, !andb_true_iff, !negb_true_iff, !not_true_iff_false. tauto.
Qed.

Lemma validateProtocolFields_not_conflict rule s4 s6 d4 d6 :
  validateProtocolFields rule s4 s6 d4 d6 ≠ Some (Errorf MsgConflictingFamilies).
Proof. unfold validateProtocolFields. repeat case_match; congruence. Qed.

End Families.

Section FamilyConflict.
Context `{Validators} `{MapRange} {Store : Type} `{Cluster Store}.

(** C4, as the code has it. For every rule with a valid action and state whose
    Source and Destination are both set and both pass subject validation:
    validation fails with the family-conflict error exactly when one side
    includes an IPv4 address and the other side includes neither an IPv4
    address nor a name, or the same with IPv6.  In particular a side of IPv4
    addresses only against a side of IPv6 addresses only fails, and a side of
    names only never conflicts with the other side. *)
Theorem family_conflict_exact cluster d direction rule acls :
  Action rule ∈ ValidActions →
  State rule ∈ ["enabled"; "disabled"; "logged"] →
  GetNetworkACLIDsByNames cluster (Project d) = Ok acls →
  Source rule ≠ "" →
  Destination rule ≠ "" →
  let names := validNames acls in
  let src := includes "Source" direction names
               (SplitNTrimSpace (Source rule) "," (-1) false) in
  let dst := includes "Destination" direction names
               (SplitNTrimSpace (Destination rule) "," (-1) false) in
  (∃ r, validateRuleSubjects "Source" direction
          (SplitNTrimSpace (Source rule) "," (-1) false) names = Ok r) →
  (∃ r, validateRuleSubjects "Destination" direction
          (SplitNTrimSpace (Destination rule) "," (-1) false) names = Ok r) →
  (validateRule cluster d direction rule = Some (Errorf MsgConflictingFamilies) ↔
   (src 4%Z ∧ ¬ dst 4%Z ∧ ¬ dst 0%Z) ∨ (dst 4%Z ∧ ¬ src 4%Z ∧ ¬ src 0%Z)
   ∨ (src 6%Z ∧ ¬ dst 6%Z ∧ ¬ dst 0%Z) ∨ (dst 6%Z ∧ ¬ src 6%Z ∧ ¬ src 0%Z))
  ∧ ((src 4%Z ∧ ¬ src 6%Z ∧ ¬ src 0%Z ∧ dst 6%Z ∧ ¬ dst 4%Z ∧ ¬ dst 0%Z)
     ∨ (src 6%Z ∧ ¬ src 4%Z ∧ ¬ src 0%Z ∧ dst 4%Z ∧ ¬ dst 6%Z ∧ ¬ dst 0%Z) →
     validateRule cluster d direction rule = Some (Errorf MsgConflictingFamilies))
  ∧ ((dst 0%Z ∧ ¬ dst 4%Z ∧ ¬ dst 6%Z) ∨ (src 0%Z ∧ ¬ src 4%Z ∧ ¬ src 6%Z) →
     validateRule cluster d direction rule ≠ Some (Errorf MsgConflictingFamilies)).
Proof.
  intros Ha Hs Hacls Hsrc Hdst names src dst [[[sn s4] s6] Hrs] [[[dn d4] d6] Hrd].
  assert (validateRule cluster d direction rule = Some (Errorf MsgConflictingFamilies) ↔
          (src 4%Z ∧ ¬ dst 4%Z ∧ ¬ dst 0%Z) ∨ (dst 4%Z ∧ ¬ src 4%Z ∧ ¬ src 0%Z)
          ∨ (src 6%Z ∧ ¬ dst 6%Z ∧ ¬ dst 0%Z) ∨ (dst 6%Z ∧ ¬ src 6%Z ∧ ¬ src 0%Z)) as Hiff.
  { rewrite (validateRule_subjects _ _ _ _ _ Ha Hs Hacls).
    rewrite !bool_decide_eq_true_2 by done. fold names. rewrite Hrs, Hrd. simpl.
    apply validateRuleSubjects_flags in Hrs as (Hsn & Hs4 & Hs6).
    apply validateRuleSubjects_flags in Hrd as (Hdn & Hd4 & Hd6).
    fold names in Hsn, Hs4, Hs6, Hdn, Hd4, Hd6.
    unfold src, dst. rewrite <- Hsn, <- Hs4, <- Hs6, <- Hdn, <- Hd4, <- Hd6.
    pose proof (validateProtocolFields_not_conflict rule s4 s6 d4 d6) as Hnot.
    rewrite <- (conflictingFamilies_spec sn s4 s6 dn d4 d6).
    destruct (conflictingFamilies sn s4 s6 dn d4 d6); simpl; [done|].
    split; [by intros ?%Hnot | done]. }
  split_and!; [done|..]; rewrite Hiff; tauto.
Qed.

End FamilyConflict.

(** The stated condition is not the code's: an IPv6 source against a
    destination of both families is refused as a family conflict although no
    side is IPv4-only and the destination includes IPv6; and an IPv4 source
    against an IPv4 address and a name passes, although the destination is
    then neither IPv4-only nor name-only. *)
Lemma family_conflict_not_as_stated :
  validateRule Samples.store0 Samples.web ruleDirectionIngress Samples.mixedDestination
    = Some (Errorf MsgConflictingFamilies)
  ∧ validateRuleSubjects "Source" ruleDirectionIngress ["2001:db8::1"]
      (validNames (Testbed.idsByNames Samples.store0 "default")) = Ok (false, false, true)
  ∧ validateRuleSubjects "Destination" ruleDirectionIngress ["10.0.0.1"; "2001:db8::2"]
      (validNames (Testbed.idsByNames Samples.store0 "default")) = Ok (false, true, true)
  ∧ statedConflict (false, false, true) (false, true, true) = false
  ∧ validateRule Samples.store0 Samples.web ruleDirectionEgress Samples.namedDestination
    = None
  ∧ validateRuleSubjects "Source" ruleDirectionEgress ["10.0.0.1"]
      (validNames (Testbed.idsByNames Samples.store0 "default")) = Ok (false, true, false)
  ∧ validateRuleSubjects "Destination" ruleDirectionEgress ["10.0.0.2"; "@internal"]
      (validNames (Testbed.idsByNames Samples.store0 "default")) = Ok (true, true, false)
  ∧ statedConflictLoose (false, true, false) (true, true, false) = true.
Proof. split_and!; vm_compute; reflexivity. Qed.

(** The code's condition on the rule of the spec's scenario: the source
    includes IPv4, and the destination neither IPv4 nor a name. *)
Lemma family_conflict_exact_witness :
  let names := validNames (Testbed.idsByNames Samples.store0 "default") in
  let src := includes "Source" ruleDirectionIngress names ["192.0.2.0/24"] in
  let dst := includes "Destination" ruleDirectionIngress names ["2001:db8::/32"] in
  (src 4%Z ∧ ¬ dst 4%Z ∧ ¬ dst 0%Z) ∨ (dst 4%Z ∧ ¬ src 4%Z ∧ ¬ src 0%Z)
  ∨ (src 6%Z ∧ ¬ dst 6%Z ∧ ¬ dst 0%Z) ∨ (dst 6%Z ∧ ¬ src 6%Z ∧ ¬ src 0%Z).
Proof.
  refine (proj1 (proj1 (family_conflict_exact Samples.store0 Samples.web
                          ruleDirectionIngress Samples.twoFamilies
                          (Testbed.idsByNames Samples.store0 "default")
                          _ _ _ _ _ _ _)) _).
  - by apply list_elem_of_here.
  - by apply list_elem_of_here.
  - reflexivity.
  - done.
  - done.
  - eexists. vm_compute. reflexivity.
  - eexists. vm_compute. reflexivity.
  - vm_compute. reflexivity.
Defined.

(** ** The scenario of the web rule *)

Section WebRule.
Lemma webRule_source fieldName direction names :
  validateRuleSubjects fieldName direction ["10.0.0.0/24"] names = Ok (false, true, false).
Proof.
  unfold validateRuleSubjects, subjectsLoop, validSubject.
  by assert (firstCheck checks "10.0.0.0/24" = Some 4%Z) as -> by (vm_compute; reflexivity).
Qed.

Lemma webRule_destination direction (acls : gmap string Z) :
  validateRuleSubjects "Destination" direction ["@internal"] (validNames acls) =
    if allowSubjectNames "Destination" direction then Ok (true, false, false)
    else Err (Errorf (MsgNamedSubjectsNotAllowed "Destination" direction)).
Proof.
  unfold validateRuleSubjects, subjectsLoop.
  rewrite validSubject_name.
  - by destruct (allowSubjectNames "Destination" direction).
  - split; [vm_compute; reflexivity | by apply list_elem_of_here].
Qed.

(** C8, as the code has it. Whatever ACLs the store holds: as an egress rule,
    [{action: allow, state: enabled, source: 10.0.0.0/24, destination:
    @internal, protocol: tcp, destinationPort: 80,443}] passes, and with
    protocol icmp4 and destination port 80 it fails with the error of a
    destination port used with an ICMP protocol; as an ingress rule both are
    refused, for the named subject in their Destination. *)
Theorem web_rule_scenario (st : Testbed.store) (d : common) :
  validateRule st d ruleDirectionEgress Samples.webRule = None
  ∧ validateRule st d ruleDirectionEgress Samples.webRuleICMP =
      Some (Errorf (MsgDestinationPortWithProtocol "icmp4"))
  ∧ validateRule st d ruleDirectionIngress Samples.webRule =
      Some (Wrapf (Errorf (MsgNamedSubjectsNotAllowed "Destination" ruleDirectionIngress))
                  MsgInvalidDestination)
  ∧ validateRule st d ruleDirectionIngress Samples.webRuleICMP =
      Some (Wrapf (Errorf (MsgNamedSubjectsNotAllowed "Destination" ruleDirectionIngress))
                  MsgInvalidDestination).
Proof.
  assert (∀ direction rule,
    rule = Samples.webRule ∨ rule = Samples.webRuleICMP →
    validateRule st d direction rule =
      match (if allowSubjectNames "Destination" direction then Ok (true, false, false)
             else Err (Errorf (MsgNamedSubjectsNotAllowed "Destination" direction))) with
      | Err err => Some (Wrapf err MsgInvalidDestination)
      | Ok _ => validateProtocolFields rule true false false false
      end) as Hrule.
  { intros direction rule Hr.
    rewrite (validateRule_subjects st d direction rule (Testbed.idsByNames st (Project d)));
      [| destruct Hr as [-> | ->]; by apply list_elem_of_here..
       | reflexivity].
    assert (SplitNTrimSpace (Source rule) "," (-1) false = ["10.0.0.0/24"]) as ->
      by (destruct Hr as [-> | ->]; vm_compute; reflexivity).
    assert (SplitNTrimSpace (Destination rule) "," (-1) false = ["@internal"]) as ->
      by (destruct Hr as [-> | ->]; vm_compute; reflexivity).
    rewrite webRule_source, webRule_destination.
    assert (bool_decide (Source rule ≠ "") = true) as ->
      by (destruct Hr as [-> | ->]; reflexivity).
    assert (bool_decide (Destination rule ≠ "") = true) as ->
      by (destruct Hr as [-> | ->]; reflexivity).
    by destruct (allowSubjectNames "Destination" direction). }
  split_and!; rewrite Hrule by auto; vm_compute; reflexivity.
Qed.

End WebRule.

(** The rule of the scenario is an ingress rule there, and as such it is
    refused: [@internal] is a named subject in the Destination of an ingress
    rule. *)
Lemma web_rule_refused_on_ingress :
  validateRule Samples.store0 Samples.web ruleDirectionIngress Samples.webRule =
    Some (Wrapf (Errorf (MsgNamedSubjectsNotAllowed "Destination" ruleDirectionIngress))
                MsgInvalidDestination).
Proof. vm_compute. reflexivity. Qed.

(** ** The config map *)

Section ConfigMap.
Context `{Validators} `{MapRange}.

Lemma rangeMap_empty {V : Type} : rangeMap (∅ : gmap string V) = [].
Proof.
  apply Permutation_nil_r. rewrite rangeMap_perm. by rewrite map_to_list_empty.
Qed.

Lemma elem_of_rangeMap_keys {V : Type} (m : gmap string V) (k : string) :
  k ∈ (rangeMap m).*1 ↔ is_Some (m !! k).
Proof.
  rewrite rangeMap_perm, list_elem_of_fmap. split.
  - intros ([k' v] & -> & Hin%elem_of_map_to_list). by exists v.
  - intros [v Hv]. exists (k, v). by rewrite elem_of_map_to_list.
Qed.

(** With nothing checked, the scan for unknown keys passes exactly the user
    keys, and reports the first key in the order of the scan that is not. *)
Lemma uncheckedFields_empty (keys : list string) :
  (uncheckedFields keys ∅ = None ↔ ∀ k, k ∈ keys → IsUserConfig k = true)
  ∧ (∀ err, uncheckedFields keys ∅ = Some err →
       ∃ k, k ∈ keys ∧ IsUserConfig k = false ∧ err = Errorf (MsgInvalidConfigOption k)).
Proof.
  induction keys as [|k rest [IHnone IHerr]]; simpl.
  - split; [|done]. split; [|done]. by intros _ k ?%elem_of_nil.
  - rewrite decide_False by set_solver.
    destruct (IsUserConfig k) eqn:Hk.
    + split.
      * rewrite IHnone. split.
        -- intros Hrest k' [->|?]%elem_of_cons; auto.
        -- intros Hall k' ?. apply Hall. by apply list_elem_of_further.
      * intros err (k' & ? & ? & ?)%IHerr. exists k'.
        split; [by apply list_elem_of_further | done].
    + split.
      * split; [done|]. intros Hall.
        specialize (Hall k (list_elem_of_here _ _)). congruence.
      * intros err [= <-]. exists k. split; [apply list_elem_of_here | done].
Qed.

(** The config-map validator with a nil table of field rules. *)
Lemma validateConfigMap_nil (config : option (gmap string string)) :
  validateConfigMap config None = uncheckedFields (rangeMap (entries config)).*1 ∅.
Proof.
  unfold validateConfigMap. simpl. by rewrite rangeMap_empty.
Qed.

End ConfigMap.

(** ** Update *)

Section UpdateProperties.
Context `{Validators} `{MapRange} `{Constants}.
Context {Store SDN : Type} `{Cluster Store} `{OVN Store SDN}.

(** [Update] in direct style: what it returns at each of its exits, the
    deferred [revert.Fail()] run. *)
Lemma Update_unfold config (m : machine Store SDN) :
  Update config m =
    match validateConfig (cluster m) (d m) config with
    | (_, Some err) => (m, Some err)
    | (cfg, None) =>
        let old := Put (info (d m)) in
        let ident := id (d m) in
        let project := projectName (d m) in
        let name := Name (info (d m)) in
        let '(c1, e1) := UpdateNetworkACL (cluster m) ident cfg in
        let m1 := setCluster m c1 (CallUpdateNetworkACL ident cfg) in
        match e1 with
        | Some err => (m1, Some err)
        | None =>
            let m2 := setHandle m1 (apply cfg (d m)) in
            let '(nets, e2) := NetworkUsage c1 project [name] ∅ in
            match e2 with
            | Some err => (restore old m2, Some (Wrapf err MsgFailedGettingNetworkUsage))
            | None =>
                if bool_decide (0 < size (onlyOVN nets))%nat then
                  let m3 := setSDN m2 (sdn m) CallNewOVN in
                  match NewOVN c1 (sdn m) with
                  | Some err => (restore old m3, Some (Wrapf err MsgFailedGetOVNClient))
                  | None =>
                      match GetNetworkACLIDsByNames c1 project with
                      | Err err => (restore old m3, Some (Wrapf err MsgFailedGettingACLIDs))
                      | Ok ids =>
                          let '(s4, r) := OVNEnsureACLs c1 (sdn m) project ids
                                            (onlyOVN nets) [name] true in
                          let m4 := setSDN m3 s4 (CallOVNEnsureACLs [name]) in
                          match r with
                          | Err err => (restore old m4, Some (Wrapf err MsgFailedEnsuringACL))
                          | Ok r =>
                              let '(s5, e5) :=
                                OVNPortGroupDeleteIfUnused c1 s4 project [name] in
                              let m5 := setSDN m4 s5 (CallOVNPortGroupDeleteIfUnused [name]) in
                              match e5 with
                              | Some err =>
                                  (restore old (revertOVN r m5),
                                   Some (Wrapf err MsgFailedRemovingPortGroups))
                              | None => (m5, None)
                              end
                          end
                      end
                  end
                else (m2, None)
            end
        end
    end.
Proof.
  unfold Update.
  destruct (validateConfig (cluster m) (d m) config) as [cfg [err|]]; [done|].
  unfold updateSteps, mbind, Op_bind, gets, modify, check, checkWrapf, failWith, mret, Op_ret.
  simpl.
  destruct (UpdateNetworkACL (cluster m) (id (d m)) cfg) as [c1 [e1|]]; simpl; [done|].
  destruct (NetworkUsage c1 (projectName (d m)) [Name (info (d m))] ∅) as [nets [e2|]];
    simpl; [done|].
  case_bool_decide; simpl; [|done].
  destruct (NewOVN c1 (sdn m)) as [e3|]; simpl; [done|].
  unfold Project. simpl.
  destruct (GetNetworkACLIDsByNames c1 (projectName (d m))) as [ids|e4]; simpl; [|done].
  destruct (OVNEnsureACLs c1 (sdn m) (projectName (d m)) ids (onlyOVN nets)
              [Name (info (d m))] true) as [s4 [r|e5]]; simpl; [|done].
  destruct (OVNPortGroupDeleteIfUnused c1 s4 (projectName (d m)) [Name (info (d m))])
    as [s5 [e6|]]; simpl; done.
Qed.

(** C2. For every proposed configuration that fails validation (config map or
    rules), [Update] returns the validation error and leaves everything as it
    was: the store and the control plane, the record of the calls made to
    them (no store update, no SDN call), and the handle. *)
Theorem Update_validation_failure config (m : machine Store SDN) err :
  (validateConfig (cluster m) (d m) config).2 = Some err →
  Update config m = (m, Some err).
Proof.
  intros Hv. unfold Update.
  destruct (validateConfig (cluster m) (d m) config) as [cfg e]. simpl in Hv.
  by subst e.
Qed.

Lemma init_neverNil ident project info : neverNil (init ident project info).
Proof.
  unfold neverNil, init. simpl.
  destruct info as [[? [? [?|] [?|] [?|]] ?]|]; simpl; split_and!; by eexists.
Qed.

Lemma apply_neverNil config d : neverNil (apply config d).
Proof. apply init_neverNil. Qed.

(** The handle an [Update] leaves is the one it found, or one that [init]
    made. *)
Lemma Update_handle config (m : machine Store SDN) :
  d (Update config m).1 = d m
  ∨ ∃ config', d (Update config m).1 = apply config' (d m).
Proof.
  rewrite Update_unfold. unfold restore, revertOVN.
  repeat (case_match; simpl; eauto).
Qed.

(** C9. A handle that [init] made has an ingress sequence, an egress
    sequence and a config map that are not nil, whatever it was made from;
    every [Update] of such a handle, however it ends, leaves such a handle;
    [Etag] then reads three collections that are there, and [Info] copies them
    as they are. *)
Theorem handle_never_nil :
  (∀ ident project info, neverNil (init ident project info))
  ∧ (∀ config (m : machine Store SDN), neverNil (d m) → neverNil (d (Update config m).1))
  ∧ (∀ d, neverNil d →
       ∃ ingress egress config,
         Etag d = (Name (info d), Description (Put (info d)),
                   Some ingress, Some egress, Some config)
         ∧ Put (Info d) = mkPut (Description (Put (info d)))
                                (Some ingress) (Some egress) (Some config)).
Proof.
  split_and!.
  - apply init_neverNil.
  - intros config m Hm.
    destruct (Update_handle config m) as [-> | [config' ->]]; [done|].
    apply apply_neverNil.
  - intros d ([ingress Hi] & [egress He] & [config Hc]).
    exists ingress, egress, config. unfold Etag, Info. by rewrite Hi, He, Hc.
Qed.

End UpdateProperties.

(** A proposed configuration with an unknown config key is refused, and the
    machine is left as it was. *)
Lemma Update_validation_failure_witness :
  let m := mkMachine Samples.store1 Samples.working [] Samples.web in
  Update (mkPut "" None None (Some {[ "bogus" := "1" ]})) m =
    (m, Some (Errorf (MsgInvalidConfigOption "bogus"))).
Proof.
  apply (Update_validation_failure
           (mkPut "" None None (Some {[ "bogus" := "1" ]}))
           (mkMachine Samples.store1 Samples.working [] Samples.web)).
  vm_compute. reflexivity.
Defined.

(** ** Rollback *)

Section Rollback.
Context `{Validators} `{MapRange} `{Constants}.
Context {Store SDN : Type} `{Cluster Store} `{OVN Store SDN}.

Lemma apply_apply config config' d : apply config (apply config' d) = apply config d.
Proof. reflexivity. Qed.



End Rollback.



(** ** Rule sets *)

Section RuleSets.
Context `{Validators} `{MapRange} {Store : Type} `{Cluster Store}.
Local Open Scope nat_scope.









End RuleSets.


Example repeated_rejected :
  (validateConfig Samples.store0 Samples.web Samples.repeated).2
  = Some (Errorf (MsgDuplicateRule ruleDirectionIngress 0)).
Proof. vm_compute. reflexivity. Qed.

(** The same rule once as ingress and once as egress passes. *)
Example across_directions_accepted :
  (validateConfig Samples.store0 Samples.web
     (mkPut "" (Some [Samples.fromSubnet]) (Some [Samples.fromSubnet]) None)).2 = None.
Proof. vm_compute. reflexivity. Qed.

(** A duplicate is reported before a later invalid rule is looked at. *)
Example duplicate_before_invalid :
  (validateConfig Samples.store0 Samples.web
     (mkPut "" (Some [Samples.fromSubnet; Samples.fromSubnet; Samples.twoFamilies])
            None None)).2
  = Some (Errorf (MsgDuplicateRule ruleDirectionIngress 0)).
Proof. vm_compute. reflexivity. Qed.

(** ** Unknown config keys *)

Section ConfigKeys.
Context `{Validators} `{MapRange} `{Constants}.
Context {Store SDN : Type} `{Cluster Store} `{OVN Store SDN}.

(** C10. [validateConfig] hands the config map to [validateConfigMap] with a
    nil table of field rules, so for every proposed configuration the config
    map passes exactly when each of its keys is a user key; and a key that is
    not makes [Update] fail, with the invalid-config-option error of such a
    key and nothing changed. *)
Theorem config_keys_must_be_user_keys (info : NetworkACLPut) :
  (validateConfigMap (Config info) None = None ↔
   ∀ k, is_Some (entries (Config info) !! k) → IsUserConfig k = true)
  ∧ (∀ (cluster : Store) d err,
       validateConfigMap (Config info) None = Some err →
       validateConfig cluster d info = (info, Some err))
  ∧ (∀ k0 (m : machine Store SDN),
       is_Some (entries (Config info) !! k0) → IsUserConfig k0 = false →
       ∃ k, is_Some (entries (Config info) !! k) ∧ IsUserConfig k = false
            ∧ Update info m = (m, Some (Errorf (MsgInvalidConfigOption k)))).
Proof.
  pose proof (uncheckedFields_empty (rangeMap (entries (Config info))).*1)
    as [Hnone Herr].
  split_and!.
  - rewrite validateConfigMap_nil, Hnone.
    by setoid_rewrite elem_of_rangeMap_keys.
  - intros cluster d err Hmap. unfold validateConfig. by rewrite Hmap.
  - intros k0 m Hk0 Huser.
    destruct (validateConfigMap (Config info) None) as [err|] eqn:Hmap.
    + rewrite validateConfigMap_nil in Hmap.
      destruct (Herr err Hmap) as (k & Hk & Hku & ->).
      exists k. split_and!; [by apply elem_of_rangeMap_keys | done |].
      apply Update_validation_failure. unfold validateConfig.
      by rewrite validateConfigMap_nil, Hmap.
    + rewrite validateConfigMap_nil, Hnone in Hmap.
      rewrite (Hmap k0) in Huser; [done|]. by apply elem_of_rangeMap_keys.
Qed.

End ConfigKeys.

(** ** Rename and Delete *)

Section Lifecycle.
Context `{Validators} `{MapRange} `{Constants}.
Context {Store SDN : Type} `{Cluster Store} `{OVN Store SDN}.

(** A walk that the visitor of [UsedBy()] never stops only appends. *)
Lemma visit_all d us acc l :
  visit (usageFunc d false) us acc = (l, None) →
  (us = [] ∧ l = acc)
  ∨ ∃ u rest uri, us = u :: rest ∧ usageURI d u = Ok uri.
Proof.
  destruct us as [|u rest]; simpl; [intros [= <-]; by left|].
  unfold usageFunc at 1. destruct (usageURI d u) as [uri|] eqn:Huri; [|done].
  intros _. right. by exists u, rest, uri.
Qed.

(** When [UsedBy()] reports usages, [isUsed] says the ACL is in use. *)
Lemma UsedBy_isUsed (cluster : Store) d l :
  common_UsedBy cluster d = Ok l → l ≠ [] → isUsed cluster d = Ok true.
Proof.
  unfold common_UsedBy, isUsed, usedBy, UsedBy.
  destruct (usages cluster (projectName d) [Name (Info d)]) as [us last].
  destruct (visit (usageFunc d false) us []) as [acc [err|]] eqn:Hvisit.
  - destruct (decide (err = ErrInstanceListStop)) as [->|]; [|done].
    exfalso. clear -Hvisit. revert Hvisit. generalize (@nil string).
    induction us as [|u rest IH]; intros acc0; simpl; [congruence|].
    unfold usageFunc at 1.
    destruct (usageURI d u) as [uri|e] eqn:Hu; [apply IH|].
    destruct u; simpl in Hu; congruence.
  - intros Hl Hne.
    assert (l = acc) as ->.
    { destruct last as [err|]; [|congruence].
      destruct (decide (err = ErrInstanceListStop)); congruence. }
    apply visit_all in Hvisit as [[-> ->] | (u & rest & uri & -> & Huri)]; [done|].
    simpl. unfold usageFunc at 1. by rewrite Huri.
Qed.

(** C7. For every ACL that the in-use check reports as used (as it does when
    [UsedBy()] reports usages): [Rename] to a name that no ACL of the project
    bears fails with the cannot-rename-in-use error and [Delete] with the
    cannot-delete-in-use error, and both leave everything as it was: the
    store with the ACL under its name, the record of the calls (no rename, no
    delete), and the handle. *)
Theorem in_use_blocks_rename_and_delete (m : machine Store SDN) newName :
  (isUsed (cluster m) (d m) = Ok true
   ∨ ∃ l, common_UsedBy (cluster m) (d m) = Ok l ∧ l ≠ []) →
  (∀ e, LoadByName (cluster m) (projectName (d m)) newName = Err e →
        Rename newName m = (m, Some (Errorf MsgCannotRenameInUse)))
  ∧ Delete m = (m, Some (Errorf MsgCannotDeleteInUse)).
Proof.
  intros Hused.
  assert (isUsed (cluster m) (d m) = Ok true) as Hu.
  { destruct Hused as [? | (l & Hl & Hne)]; [done | by eapply UsedBy_isUsed]. }
  split.
  - intros e Hload. unfold Rename. by rewrite Hload, Hu.
  - unfold Delete. by rewrite Hu.
Qed.

End Lifecycle.

(** The ACL [web] is used by an instance: it can be neither renamed nor
    deleted. *)
Lemma in_use_blocks_rename_and_delete_witness :
  let m := mkMachine Samples.store1 Samples.working [] Samples.web in
  Rename "www" m = (m, Some (Errorf MsgCannotRenameInUse))
  ∧ Delete m = (m, Some (Errorf MsgCannotDeleteInUse)).
Proof.
  pose (m := mkMachine Samples.store1 Samples.working [] Samples.web).
  destruct (in_use_blocks_rename_and_delete m "www") as [Hrename Hdelete].
  - left. vm_compute. reflexivity.
  - split; [|exact Hdelete].
    apply (Hrename (ErrExternal "Network ACL not found")). vm_compute. reflexivity.
Defined.

(** * Further properties of the validators *)

Section Names.
Context `{Validators}.

(** X1. A name that [validateName] accepts is a valid host name and is none of
    the reserved subjects, so no ACL can bear the name of a reserved
    classifier or of one of its aliases; a name that starts with one of
    [@ % #] is refused with the reserved-character error of that character,
    whatever follows, and the empty name with the name-required error. *)
Theorem validateName_reserved (name : string) :
  (validateName name = None →
   ValidHostname name = None
   ∧ name ∉ (ruleSubjectInternalAliases ++ ruleSubjectExternalAliases)%list)
  ∧ (∀ p, p ∈ ["@"; "%"; "#"] → String.prefix p name = true →
       ∃ c rest, name = String c rest
                 ∧ validateName name = Some (Errorf (MsgNameReservedChar c)))
  ∧ (name = "" → validateName name = Some (Errorf MsgNameRequired)).
Proof.
  split_and!.
  - destruct name as [|c rest]; [done|]. unfold validateName.
    destruct (StringHasPrefix _ _) eqn:Hp; [done|]. intros Hv. split; [done|].
    unfold StringHasPrefix in Hp. simpl existsb in Hp.
    rewrite !orb_false_iff in Hp. destruct Hp as (Hat & _ & Hhash & _).
    unfold ruleSubjectInternalAliases, ruleSubjectExternalAliases,
      ruleSubjectInternal, ruleSubjectExternal.
    intros Hin. simpl in Hin.
    repeat (apply elem_of_cons in Hin as [Heq|Hin];
            [injection Heq as -> ->; simpl in Hat, Hhash; congruence|]).
    by apply elem_of_nil in Hin.
  - intros p Hp Hprefix. destruct name as [|c rest].
    { repeat (apply elem_of_cons in Hp as [->|Hp]; [done|]). by apply elem_of_nil in Hp. }
    exists c, rest. split; [done|]. unfold validateName.
    assert (StringHasPrefix (String c rest) ["@"; "%"; "#"] = true) as ->; [|done].
    unfold StringHasPrefix. apply existsb_exists. exists p.
    by rewrite <- list_elem_of_In.
  - by intros ->.
Qed.

(** X2. [validatePorts] passes exactly the lists whose every port is a port
    number or a port range, and otherwise reports the first port of the list
    that is neither, with the invalid-port error of that port. *)
Theorem validatePorts_first_invalid (ports : list string) :
  let valid port := IsNetworkPort port = None ∨ IsNetworkPortRange port = None in
  (validatePorts ports = None ↔ Forall valid ports)
  ∧ (∀ err, validatePorts ports = Some err ↔
       ∃ before port after,
         ports = (before ++ port :: after)%list ∧ Forall valid before ∧ ¬ valid port
         ∧ err = Errorf (MsgInvalidPort port)).
Proof.
  intros valid.
  assert (∀ port, validPort port = None ↔ valid port) as Hnone.
  { intros port. unfold validPort, valid.
    destruct (IsNetworkPort port), (IsNetworkPortRange port); naive_solver. }
  assert (∀ port err, validPort port = Some err → err = Errorf (MsgInvalidPort port))
    as Hsome.
  { intros port err. unfold validPort.
    destruct (IsNetworkPort port), (IsNetworkPortRange port); naive_solver. }
  induction ports as [|port rest [IHnone IHerr]]; simpl.
  - split; [by split|]. intros err. split; [done|].
    intros (before & p & after & Heq & _). by destruct before.
  - destruct (validPort port) as [e|] eqn:Hp.
    + assert (¬ valid port) as Hnot by (rewrite <- Hnone; congruence).
      split.
      * split; [done|]. by intros [? _]%Forall_cons.
      * intros err. split.
        -- intros [= <-]. exists [], port, rest. by rewrite (Hsome _ _ Hp).
        -- intros ([|p' before] & p & after & Heq & Hbefore & Hp' & ->);
             simplify_eq/=; [by rewrite (Hsome _ _ Hp)|].
           by apply Forall_cons in Hbefore as [? _].
    + apply Hnone in Hp. split.
      * rewrite IHnone, Forall_cons. naive_solver.
      * intros err. rewrite IHerr. split.
        -- intros (before & p & after & -> & Hb & Hnot & ->).
           exists (port :: before), p, after. by rewrite Forall_cons.
        -- intros ([|p' before] & p & after & Heq & Hbefore & Hnot & ->);
             simplify_eq/=; [done|].
           apply Forall_cons in Hbefore as [_ ?]. by exists before, p, after.
Qed.

End Names.

Section ConfigTable.
Context `{Validators} `{MapRange}.

(** The first loop of the config-map validator, on any enumeration of the
    table: it passes when every validator accepts its value, and then every
    key of the table is marked as checked. *)
Lemma runValidators_spec (config : gmap string string)
    (rules : list (string * (string → option error))) (checked : gset string) :
  (∀ checked', runValidators config rules checked = Ok checked' →
     Forall (λ kv, kv.2 (default "" (config !! kv.1)) = None) rules
     ∧ ∀ k, k ∈ checked' ↔ k ∈ checked ∨ k ∈ rules.*1)
  ∧ (∀ err, runValidators config rules checked = Err err →
       ∃ k validator e, (k, validator) ∈ rules
         ∧ validator (default "" (config !! k)) = Some e
         ∧ err = Wrapf e (MsgInvalidConfigValue k)).
Proof.
  revert checked. induction rules as [|[k validator] rest IH]; intros checked; simpl.
  - split; [|done]. intros checked' [= <-]. split; [done|]. set_solver.
  - destruct (validator (default "" (config !! k))) as [e|] eqn:Hk.
    + split; [done|]. intros err [= <-]. exists k, validator, e.
      split; [apply list_elem_of_here | done].
    + destruct (IH ({[k]} ∪ checked)) as [IHok IHerr]. split.
      * intros checked' [Hall Hin]%IHok. split; [by apply Forall_cons|].
        intros k'. rewrite Hin. set_solver.
      * intros err (k' & v' & e & Hin & Hv & ->)%IHerr.
        exists k', v', e. split; [by apply list_elem_of_further | done].
Qed.

Lemma uncheckedFields_spec (keys : list string) (checked : gset string) :
  uncheckedFields keys checked = None ↔
  ∀ k, k ∈ keys → k ∈ checked ∨ IsUserConfig k = true.
Proof.
  induction keys as [|k rest IH]; simpl.
  - split; [|done]. by intros _ k ?%elem_of_nil.
  - destruct (decide (k ∈ checked)) as [Hin|Hnin]; [|destruct (IsUserConfig k) eqn:Hu].
    + rewrite IH. split.
      * intros Hrest k' [->|?]%elem_of_cons; auto.
      * intros Hall k' ?. apply Hall. by apply list_elem_of_further.
    + rewrite IH. split.
      * intros Hrest k' [->|?]%elem_of_cons; auto.
      * intros Hall k' ?. apply Hall. by apply list_elem_of_further.
    + split; [done|]. intros Hall.
      destruct (Hall k (list_elem_of_here _ _)); [done | congruence].
Qed.

(** X3. With a table of field rules, whatever the order in which the two maps are
    visited: the config map passes exactly when every validator of the table
    accepts the value of its key (the empty string when the key is absent)
    and every key of the map is in the table or is a user key; and when a
    validator refuses, the error is that validator's, wrapped with the key. *)
Theorem validateConfigMap_table (config : option (gmap string string))
    (rules : gmap string (string → option error)) :
  (validateConfigMap config (Some rules) = None ↔
   (∀ k validator, rules !! k = Some validator →
                   validator (default "" (entries config !! k)) = None)
   ∧ (∀ k, is_Some (entries config !! k) →
           is_Some (rules !! k) ∨ IsUserConfig k = true))
  ∧ (∀ k validator e,
       rules !! k = Some validator →
       validator (default "" (entries config !! k)) = Some e →
       ∃ k' validator' e',
         rules !! k' = Some validator'
         ∧ validator' (default "" (entries config !! k')) = Some e'
         ∧ validateConfigMap config (Some rules)
           = Some (Wrapf e' (MsgInvalidConfigValue k'))).
Proof.
  assert (∀ k validator, (k, validator) ∈ rangeMap rules ↔ rules !! k = Some validator)
    as Hin.
  { intros k validator. by rewrite rangeMap_perm, elem_of_map_to_list. }
  unfold validateConfigMap. change (entries (Some rules)) with rules.
  destruct (runValidators_spec (entries config) (rangeMap rules) ∅) as [Hok Herr].
  destruct (runValidators (entries config) (rangeMap rules) ∅) as [checked|err] eqn:Hrun.
  - destruct (Hok checked eq_refl) as [Hall Hchecked].
    rewrite Forall_forall in Hall.
    assert (∀ k validator, rules !! k = Some validator →
              validator (default "" (entries config !! k)) = None) as Hpass.
    { intros k validator Hk%Hin. by apply (Hall (k, validator)). }
    split.
    + rewrite uncheckedFields_spec. split.
      * intros Hkeys. split; [done|]. intros k Hk%elem_of_rangeMap_keys.
        destruct (Hkeys k Hk) as [Hc|?]; [left | by right].
        apply Hchecked in Hc as [?%elem_of_empty|Hc]; [done|].
        by apply elem_of_rangeMap_keys in Hc.
      * intros [_ Hkeys] k Hk%elem_of_rangeMap_keys.
        destruct (Hkeys k Hk) as [Hr|?]; [left | by right].
        apply Hchecked. right. by apply elem_of_rangeMap_keys.
    + intros k validator e Hk He. specialize (Hpass k validator Hk). congruence.
  - destruct (Herr err eq_refl) as (k' & v' & e' & Hk' & Hv' & ->).
    apply Hin in Hk'. split.
    + split; [done|]. intros [Hpass _]. specialize (Hpass k' v' Hk'). congruence.
    + intros _ _ _ _ _. by exists k', v', e'.
Qed.

End ConfigTable.

Section Independence.
Context `{Validators} `{MapRange} {Store : Type} `{Cluster Store}.

(** The verdict on a subject depends on the valid names only through
    membership. *)
Lemma subjectName_decided fieldName direction names s :
  subjectName fieldName direction names s =
    if bool_decide (s ∈ names)
    then if allowSubjectNames fieldName direction then Ok 0%Z
         else Err (Errorf (MsgNamedSubjectsNotAllowed fieldName direction))
    else Err (Errorf (MsgInvalidSubject s)).
Proof.
  case_bool_decide.
  - by apply subjectName_elem_of.
  - by apply subjectName_not_elem_of.
Qed.

Lemma subjectsLoop_ext fieldName direction fieldName' direction' names names'
    subjects n v4 v6 :
  (∀ s, s ∈ subjects →
        validSubject fieldName direction names s
        = validSubject fieldName' direction' names' s) →
  subjectsLoop fieldName direction names subjects n v4 v6
  = subjectsLoop fieldName' direction' names' subjects n v4 v6.
Proof.
  revert n v4 v6. induction subjects as [|s rest IH]; intros n v4 v6 Hs; [done|].
  simpl. rewrite <- (Hs s) by apply list_elem_of_here.
  destruct (validSubject fieldName direction names s); [|done].
  repeat case_match; apply IH; intros; apply Hs; by apply list_elem_of_further.
Qed.

(** The rule validator as a function of the list of valid names. *)
Lemma validateRule_names cluster d direction rule acls :
  GetNetworkACLIDsByNames cluster (Project d) = Ok acls →
  validateRule cluster d direction rule =
    if negb (StringInSlice (Action rule) ValidActions)
    then Some (Errorf MsgActionMustBeOneOf)
    else if negb (StringInSlice (State rule) ["enabled"; "disabled"; "logged"])
    then Some (Errorf MsgStateMustBeOneOf)
    else
      match (if bool_decide (Source rule ≠ "")
             then validateRuleSubjects "Source" direction
                    (SplitNTrimSpace (Source rule) "," (-1) false) (validNames acls)
             else Ok (false, false, false)) with
      | Err err => Some (Wrapf err MsgInvalidSource)
      | Ok (srcHasName, srcHasIPv4, srcHasIPv6) =>
          match (if bool_decide (Destination rule ≠ "")
                 then validateRuleSubjects "Destination" direction
                        (SplitNTrimSpace (Destination rule) "," (-1) false)
                        (validNames acls)
                 else Ok (false, false, false)) with
          | Err err => Some (Wrapf err MsgInvalidDestination)
          | Ok (dstHasName, dstHasIPv4, dstHasIPv6) =>
              if bool_decide (Source rule ≠ "") && bool_decide (Destination rule ≠ "")
                 && conflictingFamilies srcHasName srcHasIPv4 srcHasIPv6
                                        dstHasName dstHasIPv4 dstHasIPv6
              then Some (Errorf MsgConflictingFamilies)
              else validateProtocolFields rule srcHasIPv4 srcHasIPv6 dstHasIPv4 dstHasIPv6
          end
      end.
Proof. intros Hacls. unfold validateRule. by rewrite Hacls. Qed.

(** X4. The verdict on a rule depends on the store only through the set of the
    ACL names of the project: two stores that list the same names, under
    whatever ids and in whatever order Go ranges over them, give the same
    verdict, error included. *)
Theorem validateRule_same_names cluster cluster' d d' direction rule acls acls' :
  GetNetworkACLIDsByNames cluster (Project d) = Ok acls →
  GetNetworkACLIDsByNames cluster' (Project d') = Ok acls' →
  dom acls = dom acls' →
  validateRule cluster d direction rule = validateRule cluster' d' direction rule.
Proof.
  intros Hacls Hacls' Hdom.
  rewrite (validateRule_names _ _ _ _ _ Hacls), (validateRule_names _ _ _ _ _ Hacls').
  assert (∀ fieldName subjects,
            validateRuleSubjects fieldName direction subjects (validNames acls)
            = validateRuleSubjects fieldName direction subjects (validNames acls'))
    as Hsame.
  { intros fieldName subjects. apply subjectsLoop_ext. intros s _.
    unfold validSubject. destruct (firstCheck checks s); [done|].
    rewrite !subjectName_decided.
    assert (s ∈ validNames acls ↔ s ∈ validNames acls') as Hin.
    { unfold validNames. rewrite !elem_of_app, !elem_of_rangeMap_keys.
      rewrite <- !elem_of_dom, Hdom. done. }
    by rewrite (bool_decide_ext _ _ Hin). }
  by rewrite !Hsame.
Qed.

(** X5. Only names make the direction matter: a rule none of whose subjects is a
    valid name gets the same verdict as an ingress and as an egress rule. *)
Theorem validateRule_direction_free cluster d rule acls :
  GetNetworkACLIDsByNames cluster (Project d) = Ok acls →
  (∀ s, s ∈ SplitNTrimSpace (Source rule) "," (-1) false
        ∨ s ∈ SplitNTrimSpace (Destination rule) "," (-1) false →
        ¬ isName (validNames acls) s) →
  validateRule cluster d ruleDirectionIngress rule
  = validateRule cluster d ruleDirectionEgress rule.
Proof.
  intros Hacls Hnone.
  rewrite !(validateRule_names _ _ _ _ _ Hacls).
  assert (∀ fieldName subjects,
            (∀ s, s ∈ subjects → ¬ isName (validNames acls) s) →
            validateRuleSubjects fieldName ruleDirectionIngress subjects (validNames acls)
            = validateRuleSubjects fieldName ruleDirectionEgress subjects (validNames acls))
    as Hsame.
  { intros fieldName subjects Hs. apply subjectsLoop_ext. intros s Hin.
    unfold validSubject. destruct (firstCheck checks s) eqn:Hc; [done|].
    rewrite !subjectName_decided. case_bool_decide; [|done].
    by destruct (Hs s Hin). }
  rewrite (Hsame "Source") by auto. by rewrite (Hsame "Destination") by auto.
Qed.

End Independence.

(** The two rules of addresses only of the samples get the same verdict in
    both directions. *)
Lemma validateRule_direction_free_witness :
  validateRule Samples.store0 Samples.web ruleDirectionIngress Samples.twoFamilies
  = validateRule Samples.store0 Samples.web ruleDirectionEgress Samples.twoFamilies.
Proof.
  apply (validateRule_direction_free Samples.store0 Samples.web Samples.twoFamilies
           (Testbed.idsByNames Samples.store0 "default")).
  - reflexivity.
  - intros s Hs [Hno _].
    assert (s = "192.0.2.0/24" ∨ s = "2001:db8::/32") as [-> | ->].
    { destruct Hs as [Hs | Hs]; vm_compute in Hs;
        apply elem_of_cons in Hs as [->|Hs%elem_of_nil]; auto; done. }
    + vm_compute in Hno. discriminate.
    + vm_compute in Hno. discriminate.
Defined.

(** Two stores that hold the ACL [web] under different ids give the same
    verdict. *)
Lemma validateRule_same_names_witness :
  validateRule Samples.store0 Samples.web ruleDirectionIngress Samples.fromInternal
  = validateRule Samples.store2 Samples.web ruleDirectionIngress Samples.fromInternal.
Proof.
  apply (validateRule_same_names Samples.store0 Samples.store2 Samples.web Samples.web
           ruleDirectionIngress Samples.fromInternal
           (Testbed.idsByNames Samples.store0 "default")
           (Testbed.idsByNames Samples.store2 "default")).
  - reflexivity.
  - reflexivity.
  - vm_compute. reflexivity.
Defined.

Section ICMP.
Context `{Validators} `{MapRange} {Store : Type} `{Cluster Store}.

Lemma validateProtocolFields_icmp_family rule s4 s6 d4 d6 :
  (Protocol rule = "icmp4" ∧ (s6 = true ∨ d6 = true))
  ∨ (Protocol rule = "icmp6" ∧ (s4 = true ∨ d4 = true)) →
  is_Some (validateProtocolFields rule s4 s6 d4 d6).
Proof.
  unfold validateProtocolFields.
  intros [[-> Hv] | [-> Hv]]; simpl;
    repeat case_bool_decide; try (by eexists);
    destruct Hv as [-> | ->]; simpl; try (by eexists);
    repeat case_match; by eexists.
Qed.

(** X6. The address family of an ICMP rule is checked on its own, whatever else
    the rule says: an icmp4 rule whose source or destination includes an IPv6
    address is always refused, and so is an icmp6 rule that includes an IPv4
    address, also when both sides are of one family. *)
Theorem icmp_address_family cluster d direction rule acls :
  GetNetworkACLIDsByNames cluster (Project d) = Ok acls →
  let names := validNames acls in
  let src v := Source rule ≠ ""
               ∧ includes "Source" direction names
                   (SplitNTrimSpace (Source rule) "," (-1) false) v in
  let dst v := Destination rule ≠ ""
               ∧ includes "Destination" direction names
                   (SplitNTrimSpace (Destination rule) "," (-1) false) v in
  (Protocol rule = "icmp4" → src 6%Z ∨ dst 6%Z →
   is_Some (validateRule cluster d direction rule))
  ∧ (Protocol rule = "icmp6" → src 4%Z ∨ dst 4%Z →
     is_Some (validateRule cluster d direction rule)).
Proof.
  intros Hacls names src dst.
  assert (
    (∀ s4 s6 d4 d6,
       (Source rule ≠ "" →
        ∃ sn, validateRuleSubjects "Source" direction
                (SplitNTrimSpace (Source rule) "," (-1) false) names = Ok (sn, s4, s6)) →
       (Destination rule ≠ "" →
        ∃ dn, validateRuleSubjects "Destination" direction
                (SplitNTrimSpace (Destination rule) "," (-1) false) names
              = Ok (dn, d4, d6)) →
       is_Some (validateProtocolFields rule s4 s6 d4 d6)) →
    is_Some (validateRule cluster d direction rule)) as Hfail.
  { intros Hfields. rewrite (validateRule_names _ _ _ _ _ Hacls). fold names.
    repeat (case_match; try (by eexists)); simplify_eq;
      apply Hfields; intros; try (by eexists);
      repeat case_bool_decide; done. }
  split.
  - intros Hp Hv. apply Hfail. intros s4 s6 d4 d6 Hs Hd.
    apply validateProtocolFields_icmp_family. left. split; [done|].
    destruct Hv as [[Hne Hin] | [Hne Hin]].
    + left. destruct (Hs Hne) as [sn Hr].
      by apply validateRuleSubjects_flags in Hr as (_ & _ & ->).
    + right. destruct (Hd Hne) as [dn Hr].
      by apply validateRuleSubjects_flags in Hr as (_ & _ & ->).
  - intros Hp Hv. apply Hfail. intros s4 s6 d4 d6 Hs Hd.
    apply validateProtocolFields_icmp_family. right. split; [done|].
    destruct Hv as [[Hne Hin] | [Hne Hin]].
    + left. destruct (Hs Hne) as [sn Hr].
      by apply validateRuleSubjects_flags in Hr as (_ & -> & _).
    + right. destruct (Hd Hne) as [dn Hr].
      by apply validateRuleSubjects_flags in Hr as (_ & -> & _).
Qed.

End ICMP.

(** An ICMPv4 rule between two IPv6 addresses is refused. *)
Lemma icmp_address_family_witness :
  is_Some (validateRule Samples.store0 Samples.web ruleDirectionIngress Samples.pingSix).
Proof.
  refine (proj1 (icmp_address_family Samples.store0 Samples.web ruleDirectionIngress
                   Samples.pingSix (Testbed.idsByNames Samples.store0 "default") _) _ _).
  - reflexivity.
  - reflexivity.
  - left. split; [done|]. exists "2001:db8::1".
    split; [apply list_elem_of_here | vm_compute; reflexivity].
Defined.

Example pingSix_refused :
  validateRule Samples.store0 Samples.web ruleDirectionIngress Samples.pingSix
  = Some (Errorf (MsgIPv6SourceWithProtocol "icmp4")).
Proof. vm_compute. reflexivity. Qed.

(** * Further properties of the operations *)

Section Usage.
Context `{Validators} `{MapRange} `{Constants}.
Context {Store : Type} `{Cluster Store}.



End Usage.

Section Outcomes.
Context `{Validators} `{MapRange} `{Constants}.
Context {Store SDN : Type} `{Cluster Store} `{OVN Store SDN}.

(** X8. [Rename] checks in a fixed order and asks the store last: a target name
    that an ACL already bears is refused first, whatever else holds; the
    store's rename is called at most once, and only for a free, valid name
    of an ACL that is not in use; the handle takes the new name exactly when
    [Rename] returns no error, and is untouched otherwise, as are its
    configuration and the control plane in every case. *)
Theorem Rename_outcome newName (m : machine Store SDN) :
  let m' := (Rename newName m).1 in
  let err := (Rename newName m).2 in
  let asked := CallRenameNetworkACL (id (d m)) newName in
  (∀ found, LoadByName (cluster m) (projectName (d m)) newName = Ok found →
            Rename newName m = (m, Some (Errorf MsgACLExistsAlready)))
  ∧ (calls m' = calls m ∧ cluster m' = cluster m ∧ err ≠ None
     ∨ calls m' = (calls m ++ [asked])%list
       ∧ (∃ e, LoadByName (cluster m) (projectName (d m)) newName = Err e)
       ∧ isUsed (cluster m) (d m) = Ok false
       ∧ validateName newName = None
       ∧ (cluster m', err) = RenameNetworkACL (cluster m) (id (d m)) newName)
  ∧ (err = None → Name (info (d m')) = newName)
  ∧ (err ≠ None → d m' = d m)
  ∧ id (d m') = id (d m) ∧ projectName (d m') = projectName (d m)
  ∧ Put (info (d m')) = Put (info (d m)) ∧ sdn m' = sdn m.
Proof.
  unfold Rename.
  destruct (LoadByName (cluster m) (projectName (d m)) newName) as [found|e] eqn:Hload.
  { simpl. split_and!; try done; left; by split_and!. }
  destruct (isUsed (cluster m) (d m)) as [[|]|e'] eqn:Hused;
    [simpl; split_and!; try done; left; by split_and!
    | | simpl; split_and!; try done; left; by split_and!].
  destruct (validateName newName) as [e'|] eqn:Hname;
    [simpl; split_and!; try done; left; by split_and!|].
  destruct (RenameNetworkACL (cluster m) (id (d m)) newName) as [cluster' [e'|]] eqn:Hr;
    simpl; (split_and!; try done; right; split_and!; by eauto).
Qed.

(** X9. [Delete] changes neither the handle nor the control plane; an error of
    the usage scan is returned as it is, with nothing done; and when the ACL
    is not in use the store's delete is called, once, and its result is the
    result of [Delete]. *)
Theorem Delete_outcome (m : machine Store SDN) :
  d (Delete m).1 = d m ∧ sdn (Delete m).1 = sdn m
  ∧ (∀ e, isUsed (cluster m) (d m) = Err e → Delete m = (m, Some e))
  ∧ (isUsed (cluster m) (d m) = Ok false →
     calls (Delete m).1 = (calls m ++ [CallDeleteNetworkACL (id (d m))])%list
     ∧ (cluster (Delete m).1, (Delete m).2) = DeleteNetworkACL (cluster m) (id (d m))).
Proof.
  unfold Delete.
  destruct (isUsed (cluster m) (d m)) as [[|]|e'] eqn:Hused; simpl.
  - by split_and!.
  - destruct (DeleteNetworkACL (cluster m) (id (d m))) as [cluster' err].
    by split_and!.
  - split_and!; [done.. | by intros e [= <-] | done].
Qed.

(** X10. When the store refuses the write of [Update], nothing is reverted and
    nothing else is tried: the store's error is returned as it is, the handle
    keeps its configuration, and the write is the only call made. *)
Theorem Update_write_refused config (m : machine Store SDN) cfg c1 e :
  validateConfig (cluster m) (d m) config = (cfg, None) →
  UpdateNetworkACL (cluster m) (id (d m)) cfg = (c1, Some e) →
  Update config m
  = (mkMachine c1 (sdn m) (calls m ++ [CallUpdateNetworkACL (id (d m)) cfg])%list (d m),
     Some e).
Proof.
  intros Hv Hw. rewrite Update_unfold, Hv. cbv zeta. by rewrite Hw.
Qed.

(** X11. A successful [Update]: the proposal passed validation, the store accepted
    its normalised form, and the handle holds it, initialised; the old
    configuration is never written back; and the control plane is reached
    exactly when the usage scan finds a network of type ovn, in which case it
    is asked for a client, to ensure the ACL, and to remove the unused port
    groups, in this order, and its reverter is not run. *)
Theorem Update_success config (m : machine Store SDN) m' :
  Update config m = (m', None) →
  let name := Name (info (d m)) in
  ∃ cfg nets,
    validateConfig (cluster m) (d m) config = (cfg, None)
    ∧ UpdateNetworkACL (cluster m) (id (d m)) cfg = (cluster m', None)
    ∧ NetworkUsage (cluster m') (projectName (d m)) [name] ∅ = (nets, None)
    ∧ d m' = apply cfg (d m)
    ∧ ((¬ ∃ k usage, nets !! k = Some usage ∧ Type_ usage = "ovn")
       ∧ sdn m' = sdn m
       ∧ calls m' = (calls m ++ [CallUpdateNetworkACL (id (d m)) cfg])%list
       ∨ (∃ k usage, nets !! k = Some usage ∧ Type_ usage = "ovn")
         ∧ calls m' = (calls m ++ [CallUpdateNetworkACL (id (d m)) cfg; CallNewOVN;
                                   CallOVNEnsureACLs [name];
                                   CallOVNPortGroupDeleteIfUnused [name]])%list).
Proof.
  intros Hu. cbv zeta. rewrite Update_unfold in Hu.
  destruct (validateConfig (cluster m) (d m) config) as [cfg [err|]]; [done|].
  cbv zeta in Hu.
  destruct (UpdateNetworkACL (cluster m) (id (d m)) cfg) as [c1 [e1|]] eqn:Hw; [done|].
  destruct (NetworkUsage c1 (projectName (d m)) [Name (info (d m))] ∅)
    as [nets [e2|]] eqn:Hnets; [done|].
  assert ((0 < size (onlyOVN nets))%nat ↔
          ∃ k usage, nets !! k = Some usage ∧ Type_ usage = "ovn") as Hovn.
  { unfold onlyOVN. split.
    - intros Hsize.
      destruct (map_choose (filter (λ kv, Type_ kv.2 = "ovn") nets)) as (k & usage & Hk).
      { apply map_size_non_empty_iff. lia. }
      apply map_lookup_filter_Some in Hk as [Hk Ht]. by exists k, usage.
    - intros (k & usage & Hk & Ht).
      assert (filter (λ kv, Type_ kv.2 = "ovn") nets !! k = Some usage) as Hf
        by (by apply map_lookup_filter_Some).
      assert (size (filter (λ kv, Type_ kv.2 = "ovn") nets) ≠ 0)%nat; [|lia].
      apply map_size_non_empty_iff. intros Hempty. by rewrite Hempty in Hf. }
  exists cfg, nets.
  case_bool_decide as Hsize.
  - repeat (case_match; try discriminate). injection Hu as <-. simpl.
    rewrite Hnets. split_and!; [done..|]. right. rewrite <- Hovn.
    split; [done|]. by rewrite <- !(assoc_L (++)).
  - injection Hu as <-. simpl. rewrite Hnets. split_and!; [done..|]. left.
    rewrite <- Hovn. by split_and!.
Qed.

End Outcomes.

(** An update of an ACL that no OVN network uses succeeds without a call to
    the control plane. *)
Lemma Update_success_witness :
  let m := mkMachine Samples.store0 Samples.failing [] Samples.web in
  let config := mkPut "open" (Some [Samples.fromSubnetSpaced]) None None in
  ∃ cfg nets,
    validateConfig Samples.store0 Samples.web config = (cfg, None)
    ∧ UpdateNetworkACL Samples.store0 1 cfg = (cluster (Update config m).1, None)
    ∧ NetworkUsage (cluster (Update config m).1) "default" ["web"] ∅ = (nets, None)
    ∧ d (Update config m).1 = apply cfg Samples.web
    ∧ ((¬ ∃ k usage, nets !! k = Some usage ∧ Type_ usage = "ovn")
       ∧ sdn (Update config m).1 = Samples.failing
       ∧ calls (Update config m).1 = [CallUpdateNetworkACL 1 cfg]
       ∨ (∃ k usage, nets !! k = Some usage ∧ Type_ usage = "ovn")
         ∧ calls (Update config m).1
           = [CallUpdateNetworkACL 1 cfg; CallNewOVN; CallOVNEnsureACLs ["web"];
              CallOVNPortGroupDeleteIfUnused ["web"]]).
Proof.
  apply (Update_success
           (mkPut "open" (Some [Samples.fromSubnetSpaced]) None None)
           (mkMachine Samples.store0 Samples.failing [] Samples.web)).
  vm_compute. reflexivity.
Defined.

(** A store that accepts no more writes refuses the update. *)
Lemma Update_write_refused_witness :
  let full := Testbed.mkStore (Testbed.acls Samples.store0) [] [] 0 in
  let m := mkMachine full Samples.working [] Samples.web in
  let config := mkPut "open" (Some [Samples.fromSubnetSpaced]) None None in
  Update config m
  = (mkMachine full Samples.working
       [CallUpdateNetworkACL 1 (mkPut "open" (Some [Samples.fromSubnet]) None None)]
       Samples.web,
     Some (ErrExternal "database is locked")).
Proof.
  apply (Update_write_refused
           (mkPut "open" (Some [Samples.fromSubnetSpaced]) None None)
           (mkMachine (Testbed.mkStore (Testbed.acls Samples.store0) [] [] 0)
                      Samples.working [] Samples.web)).
  - vm_compute. reflexivity.
  - vm_compute. reflexivity.
Defined.

Section Persisted.
Context `{Validators} `{MapRange} `{Constants}.
Context {Store SDN : Type} `{Cluster Store} `{OVN Store SDN}.

Lemma validateConfig_normalised (cluster : Store) d config cfg :
  validateConfig cluster d config = (cfg, None) → cfg = normalised config.
Proof.
  unfold validateConfig. destruct (validateConfigMap (Config config) None); [done|].
  by intros [= <- _].
Qed.

(** X12. Whatever [Update] does, it only adds calls; it never renames or deletes;
    and a configuration it writes to the store, under the id of the handle,
    is the proposal with its rules normalised or, on rollback, the
    configuration the handle held before. *)
Theorem Update_store_calls config (m : machine Store SDN) :
  ∃ new, calls (Update config m).1 = (calls m ++ new)%list
    ∧ ∀ c, c ∈ new →
        match c with
        | CallUpdateNetworkACL i cfg =>
            i = id (d m) ∧ (cfg = normalised config ∨ cfg = Put (info (d m)))
        | CallRenameNetworkACL _ _ | CallDeleteNetworkACL _ => False
        | _ => True
        end.
Proof.
  rewrite Update_unfold.
  destruct (validateConfig (cluster m) (d m) config) as [cfg [err|]] eqn:Hv.
  { exists []. split; [by rewrite (right_id_L [] (++)) | by intros c ?%elem_of_nil]. }
  apply validateConfig_normalised in Hv as ->. cbv zeta. unfold restore, revertOVN.
  repeat case_match; simpl; rewrite <- ?(assoc_L (++)); simpl;
    (eexists; split; [done|]);
    intros c Hc; repeat (apply elem_of_cons in Hc as [->|Hc]; [by auto|]);
    by apply elem_of_nil in Hc.
Qed.

Lemma init_rulesNormalised ident project info : rulesNormalised (init ident project info).
Proof.
  unfold rulesNormalised, init. simpl.
  destruct info as [[? [? [?|] [?|] ?] ?]|]; simpl;
    split; try done; apply Forall_fmap, Forall_true; by eexists.
Qed.

(** X13. [Update] keeps the identity of the handle (id, project and name),
    however it ends, and a handle whose rules are normalised keeps rules that
    are; [init] makes such a handle from any ACL. *)
Theorem Update_keeps_handle config (m : machine Store SDN) :
  let d' := d (Update config m).1 in
  id d' = id (d m) ∧ projectName d' = projectName (d m)
  ∧ Name (info d') = Name (info (d m))
  ∧ UsedByField (info d') = UsedByField (info (d m))
  ∧ (rulesNormalised (d m) → rulesNormalised d')
  ∧ (∀ ident project info, rulesNormalised (init ident project info)).
Proof.
  cbv zeta.
  destruct (Update_handle config m) as [-> | [config' ->]].
  - split_and!; try done. apply init_rulesNormalised.
  - split_and!; try done; intros; apply init_rulesNormalised.
Qed.

End Persisted.

(** * Properties of the Starlark marshalling *)

(** The order of the keys of a map. *)

Section Order.
Import scriptlet.

Lemma bytes_inj a b : bytes a = bytes b → a = b.
Proof.
  unfold bytes. intros H.
  rewrite <-(String.string_of_list_ascii_of_string a),
          <-(String.string_of_list_ascii_of_string b).
  f_equal. revert H. apply list_fmap_eq_inj.
  intros x y Hxy.
  by rewrite <-(Ascii.ascii_N_embedding x), <-(Ascii.ascii_N_embedding y), Hxy.
Qed.

Lemma less_irrefl a : ¬ less a a.
Proof. unfold less. apply (irreflexivity lexico). Qed.

Lemma less_trans a b c : less a b → less b c → less a c.
Proof. unfold less. apply (transitivity (R:=lexico)). Qed.

Lemma less_trichotomy a b : less a b ∨ a = b ∨ less b a.
Proof.
  unfold less.
  destruct (trichotomy lexico (bytes a) (bytes b)) as [?|[?%bytes_inj|?]]; auto.
Qed.


Lemma notAfter_total A : Total (@notAfter A).
Proof.
  intros e1 e2. unfold notAfter.
  destruct (less_trichotomy e1.1 e2.1) as [H|[H|H]].
  - left. intros H'. apply (less_irrefl e1.1). by eapply less_trans.
  - left. rewrite H. apply less_irrefl.
  - right. intros H'. apply (less_irrefl e1.1). by eapply less_trans.
Qed.

Lemma notAfter_trans A : Transitive (@notAfter A).
Proof.
  intros e1 e2 e3. unfold notAfter. intros H12 H23 H31.
  destruct (less_trichotomy e1.1 e2.1) as [H|[H|H]]; [|congruence|done].
  apply H23. by eapply less_trans.
Qed.

Lemma sorted_perm {A} (entries : list (string * A)) : sorted entries ≡ₚ entries.
Proof. apply merge_sort_Permutation. Qed.

Lemma StronglySorted_keys {A} (l : list (string * A)) :
  NoDup l.*1 → StronglySorted notAfter l → StronglySorted less l.*1.
Proof.
  induction l as [|e l IH]; simpl; intros Hnd Hs; [constructor|].
  apply NoDup_cons in Hnd as [Hne Hnd]. apply StronglySorted_inv in Hs as [Hs Hall].
  constructor; [by apply IH|].
  apply Forall_fmap, Forall_forall. intros e' He'. simpl.
  rewrite Forall_forall in Hall. specialize (Hall _ He'). unfold notAfter in Hall.
  destruct (less_trichotomy e.1 e'.1) as [H|[H|H]]; [done| |done].
  destruct Hne. rewrite H. by apply list_elem_of_fmap_2.
Qed.

Lemma sorted_keys {A} (entries : list (string * A)) :
  NoDup entries.*1 → StronglySorted less (sorted entries).*1.
Proof.
  intros Hnd. apply StronglySorted_keys.
  - by rewrite sorted_perm.
  - apply StronglySorted_merge_sort; [apply notAfter_trans|apply notAfter_total].
Qed.


End Order.

Section Marshal.
Import scriptlet.
Local Open Scope list_scope.
Context {F : Type}.
Implicit Types (input elem : GoValue F) (d : list (Value F * Value F)).
Implicit Types (items : list (string * Value F)).

Lemma starlarkMarshal_Slice (elems : list (GoValue F)) parent :
  starlarkMarshal (Slice elems) parent = sliceLoop elems [].
Proof. reflexivity. Qed.

Lemma starlarkMarshal_Map keyKind (entries : list (string * GoValue F)) parent :
  starlarkMarshal (Map keyKind entries) parent =
    if decide (keyKind ≠ "string") then Failed (OnlyStringKeys keyKind)
    else setKeys (sorted (mapValues entries)) [].
Proof. reflexivity. Qed.

Lemma starlarkMarshal_Struct typeName (fields : list (StructField * GoValue F)) parent :
  starlarkMarshal (Struct typeName fields) parent =
    match fieldsLoop fields (default [] parent) with
    | Failed err => Failed err
    | Done d =>
        match parent with
        | None => Done (starlarkObject d typeName)
        | Some _ => Done (Dict d)
        end
    end.
Proof. reflexivity. Qed.

Lemma fieldsLoop_app (l1 l2 : list (StructField * GoValue F)) d :
  fieldsLoop (l1 ++ l2) d =
    match fieldsLoop l1 d with
    | Failed err => Failed err
    | Done d' => fieldsLoop l2 d'
    end.
Proof.
  revert d. induction l1 as [|[field fieldValue] rest IH]; intros d; [done|].
  cbn [fieldsLoop app]. destruct (negb (IsExported field)); [apply IH|].
  destruct fieldValue as [|[] ?| | | | | | | | | |];
    try destruct (Anonymous field);
    try (apply IH);
    match goal with
    | |- context [starlarkMarshal ?v ?p] => destruct (starlarkMarshal v p) as [[]|]
    end; try done; apply IH.
Qed.

(** X14. The fields of an embedded struct are set on the struct that embeds it,
    where the embedded field stands: a struct marshals as the struct that
    declares the embedded struct's fields itself at that place does, error
    included. *)
Theorem embedded_struct_flattened typeName before field inner innerFields after :
  IsExported field = true →
  Anonymous field = true →
  StarlarkMarshal (F:=F)
    (Struct typeName (before ++ (field, Struct inner innerFields) :: after))
  = StarlarkMarshal (Struct typeName (before ++ innerFields ++ after)).
Proof.
  intros He Ha. unfold StarlarkMarshal. rewrite !starlarkMarshal_Struct.
  rewrite !fieldsLoop_app. simpl default.
  destruct (fieldsLoop before []) as [d|]; [|done].
  cbn [fieldsLoop]. rewrite He, Ha. simpl negb. cbv iota.
  rewrite starlarkMarshal_Struct, fieldsLoop_app. simpl default.
  by destruct (fieldsLoop innerFields d).
Qed.


Lemma GoValue_induction (P : GoValue F → Prop) :
  P Nil →
  (∀ isStruct sv, P (Starlark isStruct sv)) →
  (∀ s, P (GoString s)) →
  (∀ n, P (GoInt n)) →
  (∀ n, P (GoUint n)) →
  (∀ f, P (GoFloat f)) →
  (∀ b, P (GoBool b)) →
  (∀ elems, Forall P elems → P (Slice elems)) →
  (∀ keyKind entries, Forall (λ e, P e.2) entries → P (Map keyKind entries)) →
  (∀ typeName fields, Forall (λ fd, P fd.2) fields → P (Struct typeName fields)) →
  P (Pointer None) →
  (∀ elem, P elem → P (Pointer (Some elem))) →
  (∀ typeName, P (Other typeName)) →
  ∀ v, P v.
Proof.
  intros HNil HStarlark HString HInt HUint HFloat HBool HSlice HMap HStruct HNull HPtr HOther.
  refine (fix IH (v : GoValue F) : P v :=
    match v with
    | Nil => HNil
    | Starlark b sv => HStarlark b sv
    | GoString s => HString s
    | GoInt n => HInt n
    | GoUint n => HUint n
    | GoFloat f => HFloat f
    | GoBool b => HBool b
    | Slice elems =>
        HSlice elems
          ((fix go (l : list (GoValue F)) : Forall P l :=
              match l with
              | [] => Forall_nil_2 _
              | x :: r => Forall_cons_2 _ _ _ (IH x) (go r)
              end) elems)
    | Map keyKind entries =>
        HMap keyKind entries
          ((fix go (l : list (string * GoValue F)) : Forall (λ e, P e.2) l :=
              match l with
              | [] => Forall_nil_2 _
              | x :: r => Forall_cons_2 (λ e, P e.2) _ _ (IH x.2) (go r)
              end) entries)
    | Struct typeName fields =>
        HStruct typeName fields
          ((fix go (l : list (StructField * GoValue F)) : Forall (λ e, P e.2) l :=
              match l with
              | [] => Forall_nil_2 _
              | x :: r => Forall_cons_2 (λ e, P e.2) _ _ (IH x.2) (go r)
              end) fields)
    | Pointer None => HNull
    | Pointer (Some elem) => HPtr elem (IH elem)
    | Other typeName => HOther typeName
    end).
Qed.



Lemma supported_Slice (elems : list (GoValue F)) :
  supported (Slice elems) ↔ Forall supported elems.
Proof.
  simpl. induction elems as [|e l IH]; [by split; [constructor|]|].
  rewrite Forall_cons. by rewrite IH.
Qed.

Lemma supported_Map keyKind (entries : list (string * GoValue F)) :
  supported (Map keyKind entries) ↔
    keyKind = "string" ∧ Forall (λ e, supported e.2) entries.
Proof.
  simpl. apply and_iff_compat_l.
  induction entries as [|[k mv] l IH]; [by split; [constructor|]|].
  rewrite Forall_cons. by rewrite IH.
Qed.

Lemma supported_Struct typeName (fields : list (StructField * GoValue F)) :
  supported (Struct typeName fields) ↔
    Forall (λ fd, IsExported fd.1 = true → supported fd.2) fields.
Proof.
  simpl. induction fields as [|[k mv] l IH]; [by split; [constructor|]|].
  rewrite Forall_cons. by rewrite IH.
Qed.

(** *** Dicts with string keys *)

Lemma Get_SetKey d k v : Get (SetKey d k v) k = Some v.
Proof.
  induction d as [|[[] v'] rest IH]; simpl; try done.
  - by rewrite decide_True.
  - destruct (decide (s = k)) as [->|Hne]; simpl.
    + by rewrite decide_True.
    + by rewrite decide_False.
Qed.

Lemma Get_SetKey_ne d k k' v : k ≠ k' → Get (SetKey d k v) k' = Get d k'.
Proof.
  intros Hne. induction d as [|[[] v'] rest IH]; simpl; try done.
  - by rewrite decide_False.
  - destruct (decide (s = k)) as [->|Hne']; simpl.
    + by rewrite !decide_False.
    + by rewrite IH.
Qed.

Lemma SetKey_fresh items k v :
  k ∉ items.*1 → SetKey (item <$> items) k v = item <$> (items ++ [(k, v)]).
Proof.
  induction items as [|[k' v'] rest IH]; csimpl; intros Hk; [done|].
  apply not_elem_of_cons in Hk as [Hne Hk].
  rewrite decide_False by done. by rewrite IH.
Qed.

Lemma Get_item items k dv :
  NoDup items.*1 → (k, dv) ∈ items → Get (item <$> items) k = Some dv.
Proof.
  induction items as [|[k' v'] rest IH]; csimpl; intros Hnd Hin.
  { by apply elem_of_nil in Hin. }
  apply NoDup_cons in Hnd as [Hne Hnd].
  apply elem_of_cons in Hin as [[= -> ->]|Hin].
  - by rewrite decide_True.
  - rewrite decide_False; [by apply IH|].
    intros ->. destruct Hne. by apply (list_elem_of_fmap_2 fst) in Hin.
Qed.

Lemma Get_item_None items k : k ∉ items.*1 → Get (item <$> items) k = None.
Proof.
  induction items as [|[k' v'] rest IH]; csimpl; intros Hk; [done|].
  apply not_elem_of_cons in Hk as [Hne Hk].
  rewrite decide_False by done. by apply IH.
Qed.

(** *** The Map case *)

Lemma mapValues_fmap (entries : list (string * GoValue F)) :
  mapValues entries = (λ e, (e.1, starlarkMarshal e.2 None)) <$> entries.
Proof. induction entries as [|[k mv] rest IH]; csimpl; [done|]. by rewrite IH. Qed.

Lemma mapValues_keys (entries : list (string * GoValue F)) :
  (mapValues entries).*1 = entries.*1.
Proof. induction entries as [|[k mv] rest IH]; csimpl; [done|]. by rewrite IH. Qed.

Lemma setKeys_Done_inv (sl : list (string * outcome (Value F))) d v :
  setKeys sl d = Done v → ∃ more, sl = (λ e, (e.1, Done e.2)) <$> more.
Proof.
  revert d. induction sl as [|[k [dv|err]] rest IH]; simpl; intros d H.
  - by exists [].
  - apply IH in H as [more ->]. by exists ((k, dv) :: more).
  - done.
Qed.

Lemma setKeys_fresh items more :
  NoDup (items.*1 ++ more.*1) →
  setKeys ((λ e, (e.1, Done e.2)) <$> more) (item <$> items)
  = Done (Dict (item <$> (items ++ more))).
Proof.
  revert items. induction more as [|[k dv] rest IH]; csimpl; intros items Hnd.
  { by rewrite app_nil_r. }
  rewrite SetKey_fresh.
  - rewrite IH; [by rewrite <-app_assoc|].
    rewrite fmap_app. simpl. by rewrite <-app_assoc.
  - apply NoDup_app in Hnd as (_ & Hd & _). intros Hk. apply (Hd _ Hk). left.
Qed.

(** X15. A Go map (its keys are distinct) that marshals gives a dict whose keys
    are the keys of the map in increasing order, whatever the order in which
    [MapKeys] lists them, and each key has the marshalled value of the map
    under it. *)
Theorem map_marshal_sorted (entries : list (string * GoValue F)) v :
  NoDup entries.*1 →
  StarlarkMarshal (Map "string" entries) = Done v →
  ∃ items,
    v = Dict (item <$> items)
    ∧ StronglySorted less items.*1
    ∧ items.*1 ≡ₚ entries.*1
    ∧ ∀ k mv, (k, mv) ∈ entries →
        ∃ dv, StarlarkMarshal mv = Done dv ∧ Get (item <$> items) k = Some dv.
Proof.
  intros Hnd Hv. unfold StarlarkMarshal in Hv. rewrite starlarkMarshal_Map in Hv.
  rewrite decide_False in Hv by (by intros []).
  destruct (setKeys_Done_inv _ _ _ Hv) as [items Hitems].
  assert (Hkeys : items.*1 = (sorted (mapValues entries)).*1).
  { rewrite Hitems, <-list_fmap_compose. by apply list_fmap_ext; intros ? []. }
  assert (Hs : StronglySorted less items.*1).
  { rewrite Hkeys. apply sorted_keys. by rewrite mapValues_keys. }
  assert (Hp : items.*1 ≡ₚ entries.*1).
  { by rewrite Hkeys, sorted_perm, mapValues_keys. }
  assert (Hnd' : NoDup items.*1) by (by rewrite Hp).
  rewrite Hitems in Hv. rewrite (setKeys_fresh []) in Hv by done.
  injection Hv as <-. exists items. split_and!; try done.
  intros k mv Hin.
  assert (Hin' : (k, starlarkMarshal mv None) ∈ sorted (mapValues entries)).
  { rewrite sorted_perm, mapValues_fmap.
    by apply (list_elem_of_fmap_2 (λ e, (e.1, starlarkMarshal e.2 None)) _ (k, mv)). }
  rewrite Hitems in Hin'. apply list_elem_of_fmap in Hin' as ([k' dv] & [= -> Hdv] & Hin').
  exists dv. split; [done|]. by apply Get_item.
Qed.

(** *** The Struct case *)

Lemma fieldsLoop_unexported field fv (rest : list (StructField * GoValue F)) d :
  IsExported field = false → fieldsLoop ((field, fv) :: rest) d = fieldsLoop rest d.
Proof. intros H. cbn [fieldsLoop]. by rewrite H. Qed.

Lemma fieldsLoop_field field fv (rest : list (StructField * GoValue F)) d :
  IsExported field = true →
  embedded (field, fv) = false →
  fieldsLoop ((field, fv) :: rest) d =
    match starlarkMarshal fv None with
    | Failed err => Failed err
    | Done dv => fieldsLoop rest (SetKey d (fieldKey field) dv)
    end.
Proof.
  intros He Hn. cbn [fieldsLoop]. rewrite He. unfold embedded in Hn. simpl in Hn.
  destruct fv as [|[] ?| | | | | | | | | |]; try done;
    destruct (Anonymous field); done.
Qed.

Lemma exportedKeys_cons field fv (rest : list (StructField * GoValue F)) :
  exportedKeys ((field, fv) :: rest) =
    if IsExported field then fieldKey field :: exportedKeys rest else exportedKeys rest.
Proof.
  unfold exportedKeys. rewrite filter_cons. simpl.
  destruct (IsExported field); by case_decide.
Qed.

Lemma fieldsLoop_spec (fields : list (StructField * GoValue F)) d d' :
  (∀ fd, fd ∈ fields → IsExported fd.1 = true → embedded fd = false) →
  NoDup (exportedKeys fields) →
  fieldsLoop fields d = Done d' →
  (∀ field fv, (field, fv) ∈ fields → IsExported field = true →
     ∃ dv, starlarkMarshal fv None = Done dv ∧ Get d' (fieldKey field) = Some dv)
  ∧ (∀ name, name ∉ exportedKeys fields → Get d' name = Get d name).
Proof.
  revert d. induction fields as [|[field fv] rest IH]; intros d Hflat Hnd Hd.
  { injection Hd as <-. split; [|done]. intros ?? Hin. by apply elem_of_nil in Hin. }
  rewrite exportedKeys_cons in *.
  assert (Hrest : ∀ fd, fd ∈ rest → IsExported fd.1 = true → embedded fd = false).
  { intros fd Hin. apply Hflat. by right. }
  destruct (IsExported field) eqn:He.
  - rewrite fieldsLoop_field in Hd by (done || (apply Hflat; [left|done])).
    destruct (starlarkMarshal fv None) as [dv|] eqn:Hdv; [|done].
    apply NoDup_cons in Hnd as [Hne Hnd].
    destruct (IH _ Hrest Hnd Hd) as [Hset Hkeep]. split.
    + intros field' fv' [[= -> ->]|Hin]%elem_of_cons He'; [|by apply Hset].
      exists dv. split; [done|]. by rewrite Hkeep, Get_SetKey.
    + intros name [Hname Hnot]%not_elem_of_cons.
      by rewrite Hkeep, Get_SetKey_ne.
  - rewrite fieldsLoop_unexported in Hd by done.
    destruct (IH _ Hrest Hnd Hd) as [Hset Hkeep]. split; [|done].
    intros field' fv' [[= -> ->]|Hin]%elem_of_cons He'; [congruence|by apply Hset].
Qed.

(** X16. The object a struct marshals to has one attribute for each exported
    field, under the field's key (the name in its json tag, or its Go name),
    holding the marshalled value of the field, and no other attribute: the
    unexported fields are not there.  This is for a struct none of whose
    exported fields is an embedded struct, and whose exported fields have
    distinct keys. *)
Theorem struct_fields_by_name typeName (fields : list (StructField * GoValue F)) obj :
  (∀ fd, fd ∈ fields → IsExported fd.1 = true → embedded fd = false) →
  NoDup (exportedKeys fields) →
  StarlarkMarshal (Struct typeName fields) = Done obj →
  ∃ d,
    obj = starlarkObject d typeName
    ∧ (∀ field fv, (field, fv) ∈ fields → IsExported field = true →
         ∃ dv, StarlarkMarshal fv = Done dv
               ∧ Attr d typeName (fieldKey field) = Done dv)
    ∧ (∀ name, name ∉ exportedKeys fields →
         Attr d typeName name = Failed (InvalidField name)).
Proof.
  intros Hflat Hnd Hobj. unfold StarlarkMarshal in Hobj.
  rewrite starlarkMarshal_Struct in Hobj. simpl default in Hobj.
  destruct (fieldsLoop fields []) as [d|] eqn:Hd; [|done].
  injection Hobj as <-. exists d.
  destruct (fieldsLoop_spec _ _ _ Hflat Hnd Hd) as [Hset Hkeep].
  split_and!; [done| |].
  - intros field fv Hin He. destruct (Hset _ _ Hin He) as (dv & Hdv & Hget).
    exists dv. split; [done|]. unfold Attr. by rewrite Hget.
  - intros name Hname. unfold Attr. by rewrite Hkeep.
Qed.

(** *** There and back *)

Section RoundTrip.
Context (inexact : Z → Z).

Lemma StarlarkUnmarshal_List (elems : list (Value F)) :
  StarlarkUnmarshal inexact (List elems) = listLoop inexact elems [].
Proof. reflexivity. Qed.

Lemma StarlarkUnmarshal_Dict (dictItems : list (Value F * Value F)) :
  StarlarkUnmarshal inexact (Dict dictItems) = dictLoop inexact dictItems [].
Proof. reflexivity. Qed.







End RoundTrip.

(** *** When marshalling succeeds *)

Lemma succeeds_Done {A} (a : A) : succeeds (Done a) ↔ True.
Proof. split; [done|]. by exists a. Qed.

Lemma succeeds_Failed {A} err : succeeds (@Failed A err) ↔ False.
Proof. split; [|done]. by intros [? ?]. Qed.

Lemma sliceLoop_succeeds (elems : list (GoValue F)) listElems :
  succeeds (sliceLoop elems listElems)
  ↔ Forall (λ elem, succeeds (starlarkMarshal elem None)) elems.
Proof.
  revert listElems. induction elems as [|elem rest IH]; intros listElems.
  { simpl. rewrite succeeds_Done. by split; [constructor|]. }
  cbn [sliceLoop]. rewrite Forall_cons.
  destruct (starlarkMarshal elem None) as [lv|err].
  - rewrite IH, succeeds_Done. tauto.
  - rewrite !succeeds_Failed. tauto.
Qed.

Lemma setKeys_succeeds (sl : list (string * outcome (Value F))) d :
  succeeds (setKeys sl d) ↔ Forall (λ e, succeeds e.2) sl.
Proof.
  revert d. induction sl as [|[k [dv|err]] rest IH]; intros d; simpl.
  - rewrite succeeds_Done. by split; [constructor|].
  - rewrite Forall_cons, IH. simpl. rewrite succeeds_Done. tauto.
  - rewrite Forall_cons. simpl. rewrite !succeeds_Failed. tauto.
Qed.

Lemma fieldsLoop_succeeds (fields : list (StructField * GoValue F)) d :
  Forall (λ fd, ∀ parent, succeeds (starlarkMarshal fd.2 parent) ↔ supported fd.2) fields →
  succeeds (fieldsLoop fields d)
  ↔ Forall (λ fd, IsExported fd.1 = true → supported fd.2) fields.
Proof.
  intros H. revert d. induction H as [|[field fv] rest Hfv _ IH]; intros d.
  { simpl. rewrite succeeds_Done. by split; [constructor|]. }
  rewrite Forall_cons. simpl in Hfv. simpl fst. simpl snd.
  destruct (IsExported field) eqn:He.
  2:{ rewrite fieldsLoop_unexported, IH by done. split; [|tauto]. by intros ?; split. }
  assert (Hstep : ∀ parent (next : Value F → list (Value F * Value F)),
    succeeds (match starlarkMarshal fv parent with
              | Failed err => Failed err
              | Done dv => fieldsLoop rest (next dv)
              end)
    ↔ (true = true → supported fv)
      ∧ Forall (λ fd, IsExported fd.1 = true → supported fd.2) rest).
  { intros parent next. rewrite <-(Hfv parent).
    destruct (starlarkMarshal fv parent) as [dv|err].
    - rewrite IH, succeeds_Done. tauto.
    - rewrite !succeeds_Failed. tauto. }
  destruct (embedded (field, fv)) eqn:Hemb.
  - unfold embedded in Hemb. simpl in Hemb.
    apply andb_true_iff in Hemb as [Ha Hkind].
    cbn [fieldsLoop]. rewrite He, Ha. simpl negb. cbv iota.
    destruct fv as [|[] ?| | | | | | | |t fs| |]; try done.
    + rewrite IH. simpl. tauto.
    + rewrite <-(Hfv (Some d)).
      destruct (starlarkMarshal (Struct t fs) (Some d)) as [[]|];
        rewrite ?IH, ?succeeds_Done, ?succeeds_Failed; tauto.
  - rewrite fieldsLoop_field by done. apply (Hstep None (λ dv, SetKey d (fieldKey field) dv)).
Qed.

Lemma starlarkMarshal_succeeds (v : GoValue F) parent :
  succeeds (starlarkMarshal v parent) ↔ supported v.
Proof.
  revert parent.
  induction v as [| | | | | | |elems IH|keyKind entries IH|typeName fields IH| |elem IH|]
    using GoValue_induction; intros parent;
    try (simpl; rewrite succeeds_Done || rewrite succeeds_Failed; tauto).
  - rewrite starlarkMarshal_Slice, sliceLoop_succeeds, supported_Slice.
    rewrite Forall_forall in IH. rewrite !Forall_forall.
    split; intros H elem He; by apply (IH elem He None), H.
  - rewrite starlarkMarshal_Map, supported_Map. case_decide as Hk.
    + rewrite succeeds_Failed. tauto.
    + rewrite setKeys_succeeds, sorted_perm, mapValues_fmap.
      rewrite Forall_fmap. split.
      * intros H. split; [done|]. 
        rewrite Forall_forall in *. intros e He. by apply (IH e He None), H.
      * intros [_ H]. rewrite Forall_forall in *. intros e He. by apply (IH e He None), H.
  - rewrite supported_Struct, <-(fieldsLoop_succeeds fields (default [] parent) IH).
    rewrite starlarkMarshal_Struct.
    destruct (fieldsLoop fields (default [] parent)) as [d|err].
    + destruct parent; rewrite !succeeds_Done; tauto.
    + by rewrite !succeeds_Failed.
  - apply (IH None).
Qed.

(** X18. [StarlarkMarshal] returns a value exactly for the inputs all of whose
    parts it looks at are of a kind it has a case for; the types of the
    unexported fields of a struct, and the order of the keys of a map, make
    no difference. *)
Theorem marshal_supported (v : GoValue F) :
  supported v ↔ ∃ sv, StarlarkMarshal v = Done sv.
Proof. symmetry. apply starlarkMarshal_succeeds. Qed.

(** *** When unmarshalling succeeds *)

Section Unmarshal.
Context (inexact : Z → Z).

Lemma Value_induction (P : Value F → Prop) :
  P None_ →
  (∀ b, P (Bool b)) →
  (∀ n, P (Int n)) →
  (∀ f, P (Float f)) →
  (∀ s, P (String_ s)) →
  (∀ elems, Forall P elems → P (List elems)) →
  (∀ dictItems, Forall (λ kv, P kv.2) dictItems → P (Dict dictItems)) →
  (∀ d typeName, P (starlarkObject d typeName)) →
  (∀ goType, P (Opaque_ goType)) →
  ∀ sv, P sv.
Proof.
  intros HNone HBool HInt HFloat HString HList HDict HObject HOpaque.
  refine (fix IH (sv : Value F) : P sv :=
    match sv with
    | None_ => HNone
    | Bool b => HBool b
    | Int n => HInt n
    | Float f => HFloat f
    | String_ s => HString s
    | List elems =>
        HList elems
          ((fix go (l : list (Value F)) : Forall P l :=
              match l with
              | [] => Forall_nil_2 _
              | x :: r => Forall_cons_2 _ _ _ (IH x) (go r)
              end) elems)
    | Dict dictItems =>
        HDict dictItems
          ((fix go (l : list (Value F * Value F)) : Forall (λ kv, P kv.2) l :=
              match l with
              | [] => Forall_nil_2 _
              | x :: r => Forall_cons_2 (λ kv, P kv.2) _ _ (IH x.2) (go r)
              end) dictItems)
    | starlarkObject d typeName => HObject d typeName
    | Opaque_ goType => HOpaque goType
    end).
Qed.

Lemma listLoop_succeeds (elems : list (Value F)) result :
  Forall (λ lv, succeeds (StarlarkUnmarshal inexact lv) ↔ convertible lv) elems →
  succeeds (listLoop inexact elems result) ↔ convertible (List elems).
Proof.
  intros H. revert result. induction H as [|lv rest Helem _ IH]; intros result.
  { simpl. by rewrite succeeds_Done. }
  cbn [listLoop]. change (convertible (List (lv :: rest)))
    with (convertible lv ∧ convertible (List rest)).
  rewrite <-Helem. destruct (StarlarkUnmarshal inexact lv) as [value|err].
  - rewrite IH, succeeds_Done. tauto.
  - rewrite !succeeds_Failed. tauto.
Qed.

Lemma dictLoop_succeeds (dictItems : list (Value F * Value F)) result :
  Forall (λ kv, succeeds (StarlarkUnmarshal inexact kv.2) ↔ convertible kv.2) dictItems →
  succeeds (dictLoop inexact dictItems result) ↔ convertible (Dict dictItems).
Proof.
  intros H. revert result.
  induction H as [|[dictKey dictValue] rest Hvalue _ IH]; intros result.
  { simpl. by rewrite succeeds_Done. }
  simpl in Hvalue. cbn [dictLoop].
  destruct dictKey; try (simpl; by rewrite succeeds_Failed).
  change (convertible (Dict ((String_ s, dictValue) :: rest)))
    with (convertible dictValue ∧ convertible (Dict rest)).
  rewrite <-Hvalue. destruct (StarlarkUnmarshal inexact dictValue) as [value|err].
  - rewrite IH, succeeds_Done. tauto.
  - rewrite !succeeds_Failed. tauto.
Qed.

Lemma StarlarkUnmarshal_succeeds (sv : Value F) :
  succeeds (StarlarkUnmarshal inexact sv) ↔ convertible sv.
Proof.
  induction sv as [| | | | |elems IH|dictItems IH| |] using Value_induction;
    try (simpl; rewrite succeeds_Done || rewrite succeeds_Failed; tauto).
  - rewrite StarlarkUnmarshal_List. by apply listLoop_succeeds.
  - rewrite StarlarkUnmarshal_Dict. by apply dictLoop_succeeds.
Qed.

Lemma convertible_List (elems : list (Value F)) :
  convertible (List elems) → Forall convertible elems.
Proof.
  simpl. induction elems as [|lv rest IH]; [by constructor|].
  intros [? ?]. constructor; auto.
Qed.

Lemma convertible_Dict (dictItems : list (Value F * Value F)) :
  convertible (Dict dictItems) → Forall (λ kv, convertible kv.2) dictItems.
Proof.
  simpl. induction dictItems as [|[dictKey dictValue] rest IH]; [by constructor|].
  destruct dictKey; try done. intros [? ?]. constructor; auto.
Qed.

(** X19. [StarlarkUnmarshal] returns a value exactly for None, bools, ints,
    floats, strings, and the lists and string-keyed dicts made of them; so
    what a struct marshals to does not unmarshal, nor does a list or a dict
    that holds it. *)
Theorem unmarshal_convertible :
  (∀ sv : Value F, convertible sv ↔ ∃ v, StarlarkUnmarshal inexact sv = Done v)
  ∧ (∀ typeName fields sv,
       StarlarkMarshal (F:=F) (Struct typeName fields) = Done sv →
       StarlarkUnmarshal inexact sv = Failed (UnsupportedType "*scriptlet.starlarkObject")
       ∧ (∀ elems v, sv ∈ elems → StarlarkUnmarshal inexact (List elems) ≠ Done v)
       ∧ (∀ dictItems k v, (k, sv) ∈ dictItems →
            StarlarkUnmarshal inexact (Dict dictItems) ≠ Done v)).
Proof.
  split; [intros sv; symmetry; apply StarlarkUnmarshal_succeeds|].
  intros typeName fields sv Hsv. unfold StarlarkMarshal in Hsv.
  rewrite starlarkMarshal_Struct in Hsv.
  destruct (fieldsLoop fields (default [] None)) as [d|]; [|done].
  injection Hsv as <-. split_and!; [done| |].
  - intros elems v Hin Hv.
    assert (Hc : convertible (List elems))
      by (apply StarlarkUnmarshal_succeeds; by eexists).
    apply convertible_List in Hc. rewrite Forall_forall in Hc. apply (Hc _ Hin).
  - intros dictItems k v Hin Hv.
    assert (Hc : convertible (Dict dictItems))
      by (apply StarlarkUnmarshal_succeeds; by eexists).
    apply convertible_Dict in Hc. rewrite Forall_forall in Hc. apply (Hc _ Hin).
Qed.

End Unmarshal.

End Marshal.

(** The theorems above, on values of the kinds the callers marshal. *)

Section Witnesses.
Import scriptlet.
Local Open Scope list_scope.

Lemma embedded_struct_flattened_witness :
  StarlarkMarshal (F:=unit)
    (Struct "Instance"
       ([(mkField "Name" "name" true false, GoString "c1")]
        ++ (mkField "InstancePut" "" true true,
            Struct "InstancePut"
              [(mkField "Description" "description,omitempty" true false, GoString "web");
               (mkField "Profiles" "profiles" true false, Slice [GoString "default"])])
        :: [(mkField "Ephemeral" "ephemeral" true false, GoBool false)]))
  = StarlarkMarshal
      (Struct "Instance"
         ([(mkField "Name" "name" true false, GoString "c1")]
          ++ [(mkField "Description" "description,omitempty" true false, GoString "web");
              (mkField "Profiles" "profiles" true false, Slice [GoString "default"])]
          ++ [(mkField "Ephemeral" "ephemeral" true false, GoBool false)])).
Proof.
  apply (embedded_struct_flattened (F:=unit) "Instance"
           [(mkField "Name" "name" true false, GoString "c1")]
           (mkField "InstancePut" "" true true)); reflexivity.
Defined.

Lemma map_marshal_sorted_witness :
  ∃ items : list (string * Value unit),
    Dict [(String_ "limits.cpu", Int 2); (String_ "user.a", String_ "x");
          (String_ "user.b", None_)]
    = Dict (item <$> items)
    ∧ StronglySorted less items.*1
    ∧ items.*1 ≡ₚ ["user.b"; "limits.cpu"; "user.a"]
    ∧ ∀ k mv,
        (k, mv) ∈ [("user.b", Nil); ("limits.cpu", GoInt 2); ("user.a", GoString "x")] →
        ∃ dv, StarlarkMarshal mv = Done dv ∧ Get (item <$> items) k = Some dv.
Proof.
  apply (map_marshal_sorted (F:=unit)
           [("user.b", Nil); ("limits.cpu", GoInt 2); ("user.a", GoString "x")]).
  - apply (bool_decide_unpack _). vm_compute. reflexivity.
  - vm_compute. reflexivity.
Defined.

Lemma struct_fields_by_name_witness :
  ∃ d : list (Value unit * Value unit),
    starlarkObject
      [(String_ "name", String_ "c1"); (String_ "Project", String_ "default")] "Instance"
    = starlarkObject d "Instance"
    ∧ (∀ field fv,
         (field, fv) ∈ [(mkField "Name" "name,omitempty" true false, GoString "c1");
                        (mkField "mu" "" false false, Other "sync.Mutex");
                        (mkField "Project" "" true false, GoString "default")] →
         IsExported field = true →
         ∃ dv, StarlarkMarshal fv = Done dv ∧ Attr d "Instance" (fieldKey field) = Done dv)
    ∧ (∀ name,
         name ∉ exportedKeys
                  [(mkField "Name" "name,omitempty" true false, GoString "c1");
                   (mkField "mu" "" false false, Other (F:=unit) "sync.Mutex");
                   (mkField "Project" "" true false, GoString "default")] →
         Attr d "Instance" name = Failed (InvalidField name)).
Proof.
  apply (struct_fields_by_name (F:=unit) "Instance"
           [(mkField "Name" "name,omitempty" true false, GoString "c1");
            (mkField "mu" "" false false, Other "sync.Mutex");
            (mkField "Project" "" true false, GoString "default")]).
  - intros fd Hin _.
    repeat (apply elem_of_cons in Hin as [->|Hin]; [reflexivity|]).
    by apply elem_of_nil in Hin.
  - apply (bool_decide_unpack _). vm_compute. reflexivity.
  - vm_compute. reflexivity.
Defined.

End Witnesses.
